(** * DriveSystem: the control-mode state machine of the Pupper drive stack

    A shallow embedding of [src/DriveSystem.cpp].

    Numbers.  The C++ code computes on [float].  Every [float] is read here as
    a real number ([R]) and every arithmetic operation as the exact operation
    on reals: rounding, overflow, infinities and NaN are not modelled, except
    in the section on single precision, which replays the handoff
    interpolation in IEEE 754 binary32.  [PI]
    and [cos] are the real constant and function.  [millis()] is an
    [unsigned long] (32 bits on the target); it is a [Z] with the wrap-around
    of the subtraction written out.

    State.  The member variables of the class are the fields of the record
    [DriveSystem]; a member function is a function from the state to the new
    state.  The two [C610Bus] members carry the last polled telemetry (what
    [Get(i)] returns) and the list of [CommandTorques] calls issued so far.
    The three function-local [static] variables of [Update] are fields too:
    the process owns one [DriveSystem].  Output on [Serial] is not modelled.

    Time.  [Update] takes the value of [millis()] as an argument; the two
    calls of [millis()] that one tick can make read the same value. *)

From Stdlib Require Import Ascii String DecimalString.
From Stdlib Require Import Floats.SpecFloat.
From Stdlib Require Import Reals Lra List ZArith Lia Bool Arith.
Import ListNotations.

Open Scope R_scope.

(** ** Comparisons on [float], as booleans *)

Definition Rgtb (x y : R) : bool := if Rgt_dec x y then true else false.
Definition Rltb (x y : R) : bool := if Rlt_dec x y then true else false.
Definition Rgeb (x y : R) : bool := if Rge_dec x y then true else false.

(** ** Fixed-size arrays

    [std::array<T, 12>] is a list; [a[i]] is [nth i a d] with the value of a
    value-initialised element as default.  A loop
    [for (i = 0; i < kNumActuators; i++) out[i] = f(i);] that writes every
    element of [out] and reads none of them builds [tabulate f]. *)

Definition kNumActuators : nat := 12.
Definition kNumActuatorsPerBus : nat := 6.

Definition ActuatorPositionVector := list R.
Definition ActuatorVelocityVector := list R.
Definition ActuatorCurrentVector := list R.
Definition ActuatorActivations := list bool.

Definition at_ (a : list R) (i : nat) : R := nth i a 0.
Definition atb (a : list bool) (i : nat) : bool := nth i a false.
Definition atz (a : list Z) (i : nat) : Z := nth i a 0%Z.

Definition tabulate {A : Type} (f : nat -> A) : list A :=
  map f (seq 0 kNumActuators).

(** [a[i] = v].  An index past the end is undefined behaviour in C++; the
    model leaves the array as it is there. *)
Fixpoint array_set {A : Type} (a : list A) (i : nat) (v : A) : list A :=
  match a, i with
  | [], _ => []
  | _ :: t, O => v :: t
  | h :: t, S j => h :: array_set t j v
  end.

Definition fill {A : Type} (v : A) : list A := repeat v kNumActuators.

(** ** 3-vectors and 3x3 matrices ([BLA::Matrix<3>], [BLA::Matrix<3,3>]) *)

Definition Vec3 : Type := R * R * R.
Definition Mat3 : Type := Vec3 * Vec3 * Vec3.  (* rows *)

Definition vadd (u v : Vec3) : Vec3 :=
  let '(a, b, c) := u in let '(x, y, z) := v in (a + x, b + y, c + z).
Definition vsub (u v : Vec3) : Vec3 :=
  let '(a, b, c) := u in let '(x, y, z) := v in (a - x, b - y, c - z).
Definition vscale (u : Vec3) (k : R) : Vec3 :=
  let '(a, b, c) := u in (a * k, b * k, c * k).
Definition vdiv (u : Vec3) (k : R) : Vec3 :=
  let '(a, b, c) := u in (a / k, b / k, c / k).
Definition dot (u v : Vec3) : R :=
  let '(a, b, c) := u in let '(x, y, z) := v in a * x + b * y + c * z.
Definition mvmul (m : Mat3) (v : Vec3) : Vec3 :=
  let '(r0, r1, r2) := m in (dot r0 v, dot r1 v, dot r2 v).
Definition transpose (m : Mat3) : Mat3 :=
  let '((a, b, c), (d, e, f), (g, h, i)) := m in
  ((a, d, g), (b, e, h), (c, f, i)).
Definition v0 (v : Vec3) : R := fst (fst v).
Definition v1 (v : Vec3) : R := snd (fst v).
Definition v2 (v : Vec3) : R := snd v.
Definition vzero : Vec3 := (0, 0, 0).
Definition mzero : Mat3 := (vzero, vzero, vzero).

(** ** The helpers of [Utils.h] and [PID.h]

    These headers are not part of the sources at hand. *)

Module Utils.

(** Modelled from the spec: the scalar clamp behind [Utils::Constrain]
    ([Utils.h] is missing), "clamp every element to [lo, hi]", with the
    comparison order of Arduino's [constrain]. *)
Definition constrain (x lo hi : R) : R :=
  if Rltb x lo then lo else if Rgtb x hi then hi else x.

(** Modelled from the spec: [Utils::Constrain] ([Utils.h] is missing),
    "clamp every element to [lo, hi]". *)
Definition Constrain (arr : list R) (lo hi : R) : list R :=
  map (fun x => constrain x lo hi) arr.

(** Modelled from the spec: [Utils::Maximum] ([Utils.h] is missing), the
    largest element of the array ("if any clamped element's magnitude
    exceeds fault_current"). *)
Definition Maximum (arr : list R) : R :=
  match arr with
  | [] => 0
  | x :: t => fold_left Rmax t x
  end.

(** Modelled from the spec: [Utils::Minimum] ([Utils.h] is missing), the
    smallest element of the array. *)
Definition Minimum (arr : list R) : R :=
  match arr with
  | [] => 0
  | x :: t => fold_left Rmin t x
  end.

(** Modelled from the spec: [Utils::MaskArray] ([Utils.h] is missing),
    "zero out entries where active_mask[i] is false". *)
Fixpoint MaskArray (arr : list R) (mask : list bool) : list R :=
  match arr with
  | [] => []
  | x :: t =>
      (if hd false mask then x else 0) :: MaskArray t (tl mask)
  end.

(** Modelled from the spec: [Utils::ElemMultiply] ([Utils.h] is missing),
    "multiply elementwise by direction_multiplier". *)
Fixpoint ElemMultiply (a b : list R) : list R :=
  match a with
  | [] => []
  | x :: t => (x * hd 0 b) :: ElemMultiply t (tl b)
  end.

(** Round to the nearest integer, halves away from zero (C's [round]). *)
Definition round (x : R) : Z :=
  if Rgeb x 0 then Zfloor (x + / 2) else (- Zfloor (- x + / 2))%Z.

(** Modelled from the spec: [Utils::ConvertToFixedPoint] ([Utils.h] is
    missing), "convert to fixed-point integer milli-units
    (round-to-nearest)".  The spec leaves ties open; [round] is used.  The
    result is an [int32_t]; a product outside its range is not modelled. *)
Definition ConvertToFixedPoint (arr : list R) (factor : R) : list Z :=
  map (fun x => round (x * factor)) arr.

(** Modelled from the spec: [Utils::InfinityNorm3] ([Utils.h] is missing),
    the infinity-norm of a 3-vector. *)
Definition InfinityNorm3 (v : Vec3) : R :=
  let '(a, b, c) := v in Rmax (Rabs a) (Rmax (Rabs b) (Rabs c)).

End Utils.

Record PDGains : Type := mkPDGains { kp : R; kd : R }.
Record PDGains3x3 : Type := mkPDGains3x3 { kp3 : Mat3; kd3 : Mat3 }.

(** Modelled from the spec: [PD] ([PID.h] is missing),
    "current = kp*(target-measured) + kd*(targetVel-measuredVel)".  The
    C++ function writes its first (reference) argument; here it returns it. *)
Definition PD (measurement measurement_vel reference reference_vel : R)
    (gains : PDGains) : R :=
  kp gains * (reference - measurement)
  + kd gains * (reference_vel - measurement_vel).

(** Modelled from the spec: [PDControl3] ([PID.h] is missing), "matrix form
    of the same law with 3x3 gain matrices". *)
Definition PDControl3 (measurement measurement_vel reference reference_vel : Vec3)
    (gains : PDGains3x3) : Vec3 :=
  vadd (mvmul (kp3 gains) (vsub reference measurement))
       (mvmul (kd3 gains) (vsub reference_vel measurement_vel)).

(** ** Collaborators: the two CAN buses

    [C610] is one motor controller as last polled; [C610Bus] owns the eight
    controllers of a bus.  Their classes are external; only what
    [DriveSystem] calls is modelled: [Get(i)] and [CommandTorques]. *)

Record C610 : Type := mkC610 {
  Position : R;
  Velocity : R;
  Current : R;
  ElectricalPower : R;
  MechanicalPower : R
}.

(** [C610()], a controller that never received a message. *)
Definition C610_default : C610 := mkC610 0 0 0 0 0.

Inductive C610Subbus : Type := kIDZeroToThree | kIDFourToSeven.

(** One call [CommandTorques(t0, t1, t2, t3, subbus)]. *)
Record TorqueCommand : Type := mkTorqueCommand {
  torque0 : Z; torque1 : Z; torque2 : Z; torque3 : Z;
  subbus : C610Subbus
}.

Record C610Bus : Type := mkC610Bus {
  controllers : list C610;       (* telemetry of the last [PollCAN] *)
  sent : list TorqueCommand      (* the calls of [CommandTorques], oldest first *)
}.

Definition Get (bus : C610Bus) (i : nat) : C610 :=
  nth i (controllers bus) C610_default.

Definition CommandTorques (t0 t1 t2 t3 : Z) (sb : C610Subbus) (bus : C610Bus)
    : C610Bus :=
  mkC610Bus (controllers bus) (sent bus ++ [mkTorqueCommand t0 t1 t2 t3 sb]).

(** ** The state of [DriveSystem] *)

Inductive DriveControlMode : Type :=
  | kIdle
  | kError
  | kHoming
  | kPositionControl
  | kCartesianPositionControl
  | kCurrentControl.

(** The member variables.  The last three fields are the function-local
    [static] variables of [Update]: [None] until control first passes through
    their declaration, [Some v] from then on (C++ initialises a local
    [static] exactly once). *)
Record DriveSystem : Type := mkDriveSystem {
  front_bus_ : C610Bus;
  rear_bus_ : C610Bus;
  control_mode_ : DriveControlMode;
  fault_current_ : R;
  fault_position_ : R;
  fault_velocity_ : R;
  max_current_ : R;
  position_reference_ : ActuatorPositionVector;
  velocity_reference_ : ActuatorVelocityVector;
  current_reference_ : ActuatorCurrentVector;
  cartesian_position_reference_ : ActuatorPositionVector;
  cartesian_velocity_reference_ : ActuatorVelocityVector;
  ff_force_ : list R;
  active_mask_ : ActuatorActivations;
  zero_position_ : ActuatorPositionVector;
  start_position_ : ActuatorPositionVector;
  position_gains_ : PDGains;
  cartesian_position_gains_ : PDGains3x3;
  direction_multipliers_ : list R;
  current_limit_ : R;
  homing_directions_ : list R;
  zero_positions_cmd_ : ActuatorPositionVector;
  initial_positions_ : ActuatorPositionVector;
  homed_axes_ : list bool;
  just_homed_ : bool;
  knee_soft_limit : R;
  last_commanded_current_ : ActuatorCurrentVector;
  transition_start_time : option Z;
  start_positions : option ActuatorPositionVector;
  target_positions : option ActuatorPositionVector
}.

(** Field updates. *)

Definition set_front_bus_ (v : C610Bus) (s : DriveSystem) : DriveSystem :=
  {| front_bus_ := v; rear_bus_ := rear_bus_ s;
     control_mode_ := control_mode_ s; fault_current_ := fault_current_ s;
     fault_position_ := fault_position_ s;
     fault_velocity_ := fault_velocity_ s; max_current_ := max_current_ s;
     position_reference_ := position_reference_ s;
     velocity_reference_ := velocity_reference_ s;
     current_reference_ := current_reference_ s;
     cartesian_position_reference_ := cartesian_position_reference_ s;
     cartesian_velocity_reference_ := cartesian_velocity_reference_ s;
     ff_force_ := ff_force_ s; active_mask_ := active_mask_ s;
     zero_position_ := zero_position_ s;
     start_position_ := start_position_ s;
     position_gains_ := position_gains_ s;
     cartesian_position_gains_ := cartesian_position_gains_ s;
     direction_multipliers_ := direction_multipliers_ s;
     current_limit_ := current_limit_ s;
     homing_directions_ := homing_directions_ s;
     zero_positions_cmd_ := zero_positions_cmd_ s;
     initial_positions_ := initial_positions_ s;
     homed_axes_ := homed_axes_ s; just_homed_ := just_homed_ s;
     knee_soft_limit := knee_soft_limit s;
     last_commanded_current_ := last_commanded_current_ s;
     transition_start_time := transition_start_time s;
     start_positions := start_positions s;
     target_positions := target_positions s |}.

Definition set_rear_bus_ (v : C610Bus) (s : DriveSystem) : DriveSystem :=
  {| front_bus_ := front_bus_ s; rear_bus_ := v;
     control_mode_ := control_mode_ s; fault_current_ := fault_current_ s;
     fault_position_ := fault_position_ s;
     fault_velocity_ := fault_velocity_ s; max_current_ := max_current_ s;
     position_reference_ := position_reference_ s;
     velocity_reference_ := velocity_reference_ s;
     current_reference_ := current_reference_ s;
     cartesian_position_reference_ := cartesian_position_reference_ s;
     cartesian_velocity_reference_ := cartesian_velocity_reference_ s;
     ff_force_ := ff_force_ s; active_mask_ := active_mask_ s;
     zero_position_ := zero_position_ s;
     start_position_ := start_position_ s;
     position_gains_ := position_gains_ s;
     cartesian_position_gains_ := cartesian_position_gains_ s;
     direction_multipliers_ := direction_multipliers_ s;
     current_limit_ := current_limit_ s;
     homing_directions_ := homing_directions_ s;
     zero_positions_cmd_ := zero_positions_cmd_ s;
     initial_positions_ := initial_positions_ s;
     homed_axes_ := homed_axes_ s; just_homed_ := just_homed_ s;
     knee_soft_limit := knee_soft_limit s;
     last_commanded_current_ := last_commanded_current_ s;
     transition_start_time := transition_start_time s;
     start_positions := start_positions s;
     target_positions := target_positions s |}.

Definition set_control_mode_ (v : DriveControlMode) (s : DriveSystem) : DriveSystem :=
  {| front_bus_ := front_bus_ s; rear_bus_ := rear_bus_ s;
     control_mode_ := v; fault_current_ := fault_current_ s;
     fault_position_ := fault_position_ s;
     fault_velocity_ := fault_velocity_ s; max_current_ := max_current_ s;
     position_reference_ := position_reference_ s;
     velocity_reference_ := velocity_reference_ s;
     current_reference_ := current_reference_ s;
     cartesian_position_reference_ := cartesian_position_reference_ s;
     cartesian_velocity_reference_ := cartesian_velocity_reference_ s;
     ff_force_ := ff_force_ s; active_mask_ := active_mask_ s;
     zero_position_ := zero_position_ s;
     start_position_ := start_position_ s;
     position_gains_ := position_gains_ s;
     cartesian_position_gains_ := cartesian_position_gains_ s;
     direction_multipliers_ := direction_multipliers_ s;
     current_limit_ := current_limit_ s;
     homing_directions_ := homing_directions_ s;
     zero_positions_cmd_ := zero_positions_cmd_ s;
     initial_positions_ := initial_positions_ s;
     homed_axes_ := homed_axes_ s; just_homed_ := just_homed_ s;
     knee_soft_limit := knee_soft_limit s;
     last_commanded_current_ := last_commanded_current_ s;
     transition_start_time := transition_start_time s;
     start_positions := start_positions s;
     target_positions := target_positions s |}.

Definition set_fault_current_ (v : R) (s : DriveSystem) : DriveSystem :=
  {| front_bus_ := front_bus_ s; rear_bus_ := rear_bus_ s;
     control_mode_ := control_mode_ s; fault_current_ := v;
     fault_position_ := fault_position_ s;
     fault_velocity_ := fault_velocity_ s; max_current_ := max_current_ s;
     position_reference_ := position_reference_ s;
     velocity_reference_ := velocity_reference_ s;
     current_reference_ := current_reference_ s;
     cartesian_position_reference_ := cartesian_position_reference_ s;
     cartesian_velocity_reference_ := cartesian_velocity_reference_ s;
     ff_force_ := ff_force_ s; active_mask_ := active_mask_ s;
     zero_position_ := zero_position_ s;
     start_position_ := start_position_ s;
     position_gains_ := position_gains_ s;
     cartesian_position_gains_ := cartesian_position_gains_ s;
     direction_multipliers_ := direction_multipliers_ s;
     current_limit_ := current_limit_ s;
     homing_directions_ := homing_directions_ s;
     zero_positions_cmd_ := zero_positions_cmd_ s;
     initial_positions_ := initial_positions_ s;
     homed_axes_ := homed_axes_ s; just_homed_ := just_homed_ s;
     knee_soft_limit := knee_soft_limit s;
     last_commanded_current_ := last_commanded_current_ s;
     transition_start_time := transition_start_time s;
     start_positions := start_positions s;
     target_positions := target_positions s |}.

Definition set_fault_velocity_ (v : R) (s : DriveSystem) : DriveSystem :=
  {| front_bus_ := front_bus_ s; rear_bus_ := rear_bus_ s;
     control_mode_ := control_mode_ s; fault_current_ := fault_current_ s;
     fault_position_ := fault_position_ s; fault_velocity_ := v;
     max_current_ := max_current_ s;
     position_reference_ := position_reference_ s;
     velocity_reference_ := velocity_reference_ s;
     current_reference_ := current_reference_ s;
     cartesian_position_reference_ := cartesian_position_reference_ s;
     cartesian_velocity_reference_ := cartesian_velocity_reference_ s;
     ff_force_ := ff_force_ s; active_mask_ := active_mask_ s;
     zero_position_ := zero_position_ s;
     start_position_ := start_position_ s;
     position_gains_ := position_gains_ s;
     cartesian_position_gains_ := cartesian_position_gains_ s;
     direction_multipliers_ := direction_multipliers_ s;
     current_limit_ := current_limit_ s;
     homing_directions_ := homing_directions_ s;
     zero_positions_cmd_ := zero_positions_cmd_ s;
     initial_positions_ := initial_positions_ s;
     homed_axes_ := homed_axes_ s; just_homed_ := just_homed_ s;
     knee_soft_limit := knee_soft_limit s;
     last_commanded_current_ := last_commanded_current_ s;
     transition_start_time := transition_start_time s;
     start_positions := start_positions s;
     target_positions := target_positions s |}.

Definition set_max_current_ (v : R) (s : DriveSystem) : DriveSystem :=
  {| front_bus_ := front_bus_ s; rear_bus_ := rear_bus_ s;
     control_mode_ := control_mode_ s; fault_current_ := fault_current_ s;
     fault_position_ := fault_position_ s;
     fault_velocity_ := fault_velocity_ s; max_current_ := v;
     position_reference_ := position_reference_ s;
     velocity_reference_ := velocity_reference_ s;
     current_reference_ := current_reference_ s;
     cartesian_position_reference_ := cartesian_position_reference_ s;
     cartesian_velocity_reference_ := cartesian_velocity_reference_ s;
     ff_force_ := ff_force_ s; active_mask_ := active_mask_ s;
     zero_position_ := zero_position_ s;
     start_position_ := start_position_ s;
     position_gains_ := position_gains_ s;
     cartesian_position_gains_ := cartesian_position_gains_ s;
     direction_multipliers_ := direction_multipliers_ s;
     current_limit_ := current_limit_ s;
     homing_directions_ := homing_directions_ s;
     zero_positions_cmd_ := zero_positions_cmd_ s;
     initial_positions_ := initial_positions_ s;
     homed_axes_ := homed_axes_ s; just_homed_ := just_homed_ s;
     knee_soft_limit := knee_soft_limit s;
     last_commanded_current_ := last_commanded_current_ s;
     transition_start_time := transition_start_time s;
     start_positions := start_positions s;
     target_positions := target_positions s |}.

Definition set_position_reference_ (v : ActuatorPositionVector) (s : DriveSystem) : DriveSystem :=
  {| front_bus_ := front_bus_ s; rear_bus_ := rear_bus_ s;
     control_mode_ := control_mode_ s; fault_current_ := fault_current_ s;
     fault_position_ := fault_position_ s;
     fault_velocity_ := fault_velocity_ s; max_current_ := max_current_ s;
     position_reference_ := v; velocity_reference_ := velocity_reference_ s;
     current_reference_ := current_reference_ s;
     cartesian_position_reference_ := cartesian_position_reference_ s;
     cartesian_velocity_reference_ := cartesian_velocity_reference_ s;
     ff_force_ := ff_force_ s; active_mask_ := active_mask_ s;
     zero_position_ := zero_position_ s;
     start_position_ := start_position_ s;
     position_gains_ := position_gains_ s;
     cartesian_position_gains_ := cartesian_position_gains_ s;
     direction_multipliers_ := direction_multipliers_ s;
     current_limit_ := current_limit_ s;
     homing_directions_ := homing_directions_ s;
     zero_positions_cmd_ := zero_positions_cmd_ s;
     initial_positions_ := initial_positions_ s;
     homed_axes_ := homed_axes_ s; just_homed_ := just_homed_ s;
     knee_soft_limit := knee_soft_limit s;
     last_commanded_current_ := last_commanded_current_ s;
     transition_start_time := transition_start_time s;
     start_positions := start_positions s;
     target_positions := target_positions s |}.

Definition set_current_reference_ (v : ActuatorCurrentVector) (s : DriveSystem) : DriveSystem :=
  {| front_bus_ := front_bus_ s; rear_bus_ := rear_bus_ s;
     control_mode_ := control_mode_ s; fault_current_ := fault_current_ s;
     fault_position_ := fault_position_ s;
     fault_velocity_ := fault_velocity_ s; max_current_ := max_current_ s;
     position_reference_ := position_reference_ s;
     velocity_reference_ := velocity_reference_ s; current_reference_ := v;
     cartesian_position_reference_ := cartesian_position_reference_ s;
     cartesian_velocity_reference_ := cartesian_velocity_reference_ s;
     ff_force_ := ff_force_ s; active_mask_ := active_mask_ s;
     zero_position_ := zero_position_ s;
     start_position_ := start_position_ s;
     position_gains_ := position_gains_ s;
     cartesian_position_gains_ := cartesian_position_gains_ s;
     direction_multipliers_ := direction_multipliers_ s;
     current_limit_ := current_limit_ s;
     homing_directions_ := homing_directions_ s;
     zero_positions_cmd_ := zero_positions_cmd_ s;
     initial_positions_ := initial_positions_ s;
     homed_axes_ := homed_axes_ s; just_homed_ := just_homed_ s;
     knee_soft_limit := knee_soft_limit s;
     last_commanded_current_ := last_commanded_current_ s;
     transition_start_time := transition_start_time s;
     start_positions := start_positions s;
     target_positions := target_positions s |}.

Definition set_cartesian_position_reference_ (v : ActuatorPositionVector) (s : DriveSystem) : DriveSystem :=
  {| front_bus_ := front_bus_ s; rear_bus_ := rear_bus_ s;
     control_mode_ := control_mode_ s; fault_current_ := fault_current_ s;
     fault_position_ := fault_position_ s;
     fault_velocity_ := fault_velocity_ s; max_current_ := max_current_ s;
     position_reference_ := position_reference_ s;
     velocity_reference_ := velocity_reference_ s;
     current_reference_ := current_reference_ s;
     cartesian_position_reference_ := v;
     cartesian_velocity_reference_ := cartesian_velocity_reference_ s;
     ff_force_ := ff_force_ s; active_mask_ := active_mask_ s;
     zero_position_ := zero_position_ s;
     start_position_ := start_position_ s;
     position_gains_ := position_gains_ s;
     cartesian_position_gains_ := cartesian_position_gains_ s;
     direction_multipliers_ := direction_multipliers_ s;
     current_limit_ := current_limit_ s;
     homing_directions_ := homing_directions_ s;
     zero_positions_cmd_ := zero_positions_cmd_ s;
     initial_positions_ := initial_positions_ s;
     homed_axes_ := homed_axes_ s; just_homed_ := just_homed_ s;
     knee_soft_limit := knee_soft_limit s;
     last_commanded_current_ := last_commanded_current_ s;
     transition_start_time := transition_start_time s;
     start_positions := start_positions s;
     target_positions := target_positions s |}.

Definition set_cartesian_velocity_reference_ (v : ActuatorVelocityVector) (s : DriveSystem) : DriveSystem :=
  {| front_bus_ := front_bus_ s; rear_bus_ := rear_bus_ s;
     control_mode_ := control_mode_ s; fault_current_ := fault_current_ s;
     fault_position_ := fault_position_ s;
     fault_velocity_ := fault_velocity_ s; max_current_ := max_current_ s;
     position_reference_ := position_reference_ s;
     velocity_reference_ := velocity_reference_ s;
     current_reference_ := current_reference_ s;
     cartesian_position_reference_ := cartesian_position_reference_ s;
     cartesian_velocity_reference_ := v; ff_force_ := ff_force_ s;
     active_mask_ := active_mask_ s; zero_position_ := zero_position_ s;
     start_position_ := start_position_ s;
     position_gains_ := position_gains_ s;
     cartesian_position_gains_ := cartesian_position_gains_ s;
     direction_multipliers_ := direction_multipliers_ s;
     current_limit_ := current_limit_ s;
     homing_directions_ := homing_directions_ s;
     zero_positions_cmd_ := zero_positions_cmd_ s;
     initial_positions_ := initial_positions_ s;
     homed_axes_ := homed_axes_ s; just_homed_ := just_homed_ s;
     knee_soft_limit := knee_soft_limit s;
     last_commanded_current_ := last_commanded_current_ s;
     transition_start_time := transition_start_time s;
     start_positions := start_positions s;
     target_positions := target_positions s |}.

Definition set_ff_force_ (v : list R) (s : DriveSystem) : DriveSystem :=
  {| front_bus_ := front_bus_ s; rear_bus_ := rear_bus_ s;
     control_mode_ := control_mode_ s; fault_current_ := fault_current_ s;
     fault_position_ := fault_position_ s;
     fault_velocity_ := fault_velocity_ s; max_current_ := max_current_ s;
     position_reference_ := position_reference_ s;
     velocity_reference_ := velocity_reference_ s;
     current_reference_ := current_reference_ s;
     cartesian_position_reference_ := cartesian_position_reference_ s;
     cartesian_velocity_reference_ := cartesian_velocity_reference_ s;
     ff_force_ := v; active_mask_ := active_mask_ s;
     zero_position_ := zero_position_ s;
     start_position_ := start_position_ s;
     position_gains_ := position_gains_ s;
     cartesian_position_gains_ := cartesian_position_gains_ s;
     direction_multipliers_ := direction_multipliers_ s;
     current_limit_ := current_limit_ s;
     homing_directions_ := homing_directions_ s;
     zero_positions_cmd_ := zero_positions_cmd_ s;
     initial_positions_ := initial_positions_ s;
     homed_axes_ := homed_axes_ s; just_homed_ := just_homed_ s;
     knee_soft_limit := knee_soft_limit s;
     last_commanded_current_ := last_commanded_current_ s;
     transition_start_time := transition_start_time s;
     start_positions := start_positions s;
     target_positions := target_positions s |}.

Definition set_active_mask_ (v : ActuatorActivations) (s : DriveSystem) : DriveSystem :=
  {| front_bus_ := front_bus_ s; rear_bus_ := rear_bus_ s;
     control_mode_ := control_mode_ s; fault_current_ := fault_current_ s;
     fault_position_ := fault_position_ s;
     fault_velocity_ := fault_velocity_ s; max_current_ := max_current_ s;
     position_reference_ := position_reference_ s;
     velocity_reference_ := velocity_reference_ s;
     current_reference_ := current_reference_ s;
     cartesian_position_reference_ := cartesian_position_reference_ s;
     cartesian_velocity_reference_ := cartesian_velocity_reference_ s;
     ff_force_ := ff_force_ s; active_mask_ := v;
     zero_position_ := zero_position_ s;
     start_position_ := start_position_ s;
     position_gains_ := position_gains_ s;
     cartesian_position_gains_ := cartesian_position_gains_ s;
     direction_multipliers_ := direction_multipliers_ s;
     current_limit_ := current_limit_ s;
     homing_directions_ := homing_directions_ s;
     zero_positions_cmd_ := zero_positions_cmd_ s;
     initial_positions_ := initial_positions_ s;
     homed_axes_ := homed_axes_ s; just_homed_ := just_homed_ s;
     knee_soft_limit := knee_soft_limit s;
     last_commanded_current_ := last_commanded_current_ s;
     transition_start_time := transition_start_time s;
     start_positions := start_positions s;
     target_positions := target_positions s |}.

Definition set_zero_position_ (v : ActuatorPositionVector) (s : DriveSystem) : DriveSystem :=
  {| front_bus_ := front_bus_ s; rear_bus_ := rear_bus_ s;
     control_mode_ := control_mode_ s; fault_current_ := fault_current_ s;
     fault_position_ := fault_position_ s;
     fault_velocity_ := fault_velocity_ s; max_current_ := max_current_ s;
     position_reference_ := position_reference_ s;
     velocity_reference_ := velocity_reference_ s;
     current_reference_ := current_reference_ s;
     cartesian_position_reference_ := cartesian_position_reference_ s;
     cartesian_velocity_reference_ := cartesian_velocity_reference_ s;
     ff_force_ := ff_force_ s; active_mask_ := active_mask_ s;
     zero_position_ := v; start_position_ := start_position_ s;
     position_gains_ := position_gains_ s;
     cartesian_position_gains_ := cartesian_position_gains_ s;
     direction_multipliers_ := direction_multipliers_ s;
     current_limit_ := current_limit_ s;
     homing_directions_ := homing_directions_ s;
     zero_positions_cmd_ := zero_positions_cmd_ s;
     initial_positions_ := initial_positions_ s;
     homed_axes_ := homed_axes_ s; just_homed_ := just_homed_ s;
     knee_soft_limit := knee_soft_limit s;
     last_commanded_current_ := last_commanded_current_ s;
     transition_start_time := transition_start_time s;
     start_positions := start_positions s;
     target_positions := target_positions s |}.

Definition set_start_position_ (v : ActuatorPositionVector) (s : DriveSystem) : DriveSystem :=
  {| front_bus_ := front_bus_ s; rear_bus_ := rear_bus_ s;
     control_mode_ := control_mode_ s; fault_current_ := fault_current_ s;
     fault_position_ := fault_position_ s;
     fault_velocity_ := fault_velocity_ s; max_current_ := max_current_ s;
     position_reference_ := position_reference_ s;
     velocity_reference_ := velocity_reference_ s;
     current_reference_ := current_reference_ s;
     cartesian_position_reference_ := cartesian_position_reference_ s;
     cartesian_velocity_reference_ := cartesian_velocity_reference_ s;
     ff_force_ := ff_force_ s; active_mask_ := active_mask_ s;
     zero_position_ := zero_position_ s; start_position_ := v;
     position_gains_ := position_gains_ s;
     cartesian_position_gains_ := cartesian_position_gains_ s;
     direction_multipliers_ := direction_multipliers_ s;
     current_limit_ := current_limit_ s;
     homing_directions_ := homing_directions_ s;
     zero_positions_cmd_ := zero_positions_cmd_ s;
     initial_positions_ := initial_positions_ s;
     homed_axes_ := homed_axes_ s; just_homed_ := just_homed_ s;
     knee_soft_limit := knee_soft_limit s;
     last_commanded_current_ := last_commanded_current_ s;
     transition_start_time := transition_start_time s;
     start_positions := start_positions s;
     target_positions := target_positions s |}.

Definition set_homed_axes_ (v : list bool) (s : DriveSystem) : DriveSystem :=
  {| front_bus_ := front_bus_ s; rear_bus_ := rear_bus_ s;
     control_mode_ := control_mode_ s; fault_current_ := fault_current_ s;
     fault_position_ := fault_position_ s;
     fault_velocity_ := fault_velocity_ s; max_current_ := max_current_ s;
     position_reference_ := position_reference_ s;
     velocity_reference_ := velocity_reference_ s;
     current_reference_ := current_reference_ s;
     cartesian_position_reference_ := cartesian_position_reference_ s;
     cartesian_velocity_reference_ := cartesian_velocity_reference_ s;
     ff_force_ := ff_force_ s; active_mask_ := active_mask_ s;
     zero_position_ := zero_position_ s;
     start_position_ := start_position_ s;
     position_gains_ := position_gains_ s;
     cartesian_position_gains_ := cartesian_position_gains_ s;
     direction_multipliers_ := direction_multipliers_ s;
     current_limit_ := current_limit_ s;
     homing_directions_ := homing_directions_ s;
     zero_positions_cmd_ := zero_positions_cmd_ s;
     initial_positions_ := initial_positions_ s; homed_axes_ := v;
     just_homed_ := just_homed_ s; knee_soft_limit := knee_soft_limit s;
     last_commanded_current_ := last_commanded_current_ s;
     transition_start_time := transition_start_time s;
     start_positions := start_positions s;
     target_positions := target_positions s |}.

Definition set_just_homed_ (v : bool) (s : DriveSystem) : DriveSystem :=
  {| front_bus_ := front_bus_ s; rear_bus_ := rear_bus_ s;
     control_mode_ := control_mode_ s; fault_current_ := fault_current_ s;
     fault_position_ := fault_position_ s;
     fault_velocity_ := fault_velocity_ s; max_current_ := max_current_ s;
     position_reference_ := position_reference_ s;
     velocity_reference_ := velocity_reference_ s;
     current_reference_ := current_reference_ s;
     cartesian_position_reference_ := cartesian_position_reference_ s;
     cartesian_velocity_reference_ := cartesian_velocity_reference_ s;
     ff_force_ := ff_force_ s; active_mask_ := active_mask_ s;
     zero_position_ := zero_position_ s;
     start_position_ := start_position_ s;
     position_gains_ := position_gains_ s;
     cartesian_position_gains_ := cartesian_position_gains_ s;
     direction_multipliers_ := direction_multipliers_ s;
     current_limit_ := current_limit_ s;
     homing_directions_ := homing_directions_ s;
     zero_positions_cmd_ := zero_positions_cmd_ s;
     initial_positions_ := initial_positions_ s;
     homed_axes_ := homed_axes_ s; just_homed_ := v;
     knee_soft_limit := knee_soft_limit s;
     last_commanded_current_ := last_commanded_current_ s;
     transition_start_time := transition_start_time s;
     start_positions := start_positions s;
     target_positions := target_positions s |}.

Definition set_last_commanded_current_ (v : ActuatorCurrentVector) (s : DriveSystem) : DriveSystem :=
  {| front_bus_ := front_bus_ s; rear_bus_ := rear_bus_ s;
     control_mode_ := control_mode_ s; fault_current_ := fault_current_ s;
     fault_position_ := fault_position_ s;
     fault_velocity_ := fault_velocity_ s; max_current_ := max_current_ s;
     position_reference_ := position_reference_ s;
     velocity_reference_ := velocity_reference_ s;
     current_reference_ := current_reference_ s;
     cartesian_position_reference_ := cartesian_position_reference_ s;
     cartesian_velocity_reference_ := cartesian_velocity_reference_ s;
     ff_force_ := ff_force_ s; active_mask_ := active_mask_ s;
     zero_position_ := zero_position_ s;
     start_position_ := start_position_ s;
     position_gains_ := position_gains_ s;
     cartesian_position_gains_ := cartesian_position_gains_ s;
     direction_multipliers_ := direction_multipliers_ s;
     current_limit_ := current_limit_ s;
     homing_directions_ := homing_directions_ s;
     zero_positions_cmd_ := zero_positions_cmd_ s;
     initial_positions_ := initial_positions_ s;
     homed_axes_ := homed_axes_ s; just_homed_ := just_homed_ s;
     knee_soft_limit := knee_soft_limit s; last_commanded_current_ := v;
     transition_start_time := transition_start_time s;
     start_positions := start_positions s;
     target_positions := target_positions s |}.

Definition set_transition_start_time (v : option Z) (s : DriveSystem) : DriveSystem :=
  {| front_bus_ := front_bus_ s; rear_bus_ := rear_bus_ s;
     control_mode_ := control_mode_ s; fault_current_ := fault_current_ s;
     fault_position_ := fault_position_ s;
     fault_velocity_ := fault_velocity_ s; max_current_ := max_current_ s;
     position_reference_ := position_reference_ s;
     velocity_reference_ := velocity_reference_ s;
     current_reference_ := current_reference_ s;
     cartesian_position_reference_ := cartesian_position_reference_ s;
     cartesian_velocity_reference_ := cartesian_velocity_reference_ s;
     ff_force_ := ff_force_ s; active_mask_ := active_mask_ s;
     zero_position_ := zero_position_ s;
     start_position_ := start_position_ s;
     position_gains_ := position_gains_ s;
     cartesian_position_gains_ := cartesian_position_gains_ s;
     direction_multipliers_ := direction_multipliers_ s;
     current_limit_ := current_limit_ s;
     homing_directions_ := homing_directions_ s;
     zero_positions_cmd_ := zero_positions_cmd_ s;
     initial_positions_ := initial_positions_ s;
     homed_axes_ := homed_axes_ s; just_homed_ := just_homed_ s;
     knee_soft_limit := knee_soft_limit s;
     last_commanded_current_ := last_commanded_current_ s;
     transition_start_time := v; start_positions := start_positions s;
     target_positions := target_positions s |}.

Definition set_start_positions (v : option ActuatorPositionVector) (s : DriveSystem) : DriveSystem :=
  {| front_bus_ := front_bus_ s; rear_bus_ := rear_bus_ s;
     control_mode_ := control_mode_ s; fault_current_ := fault_current_ s;
     fault_position_ := fault_position_ s;
     fault_velocity_ := fault_velocity_ s; max_current_ := max_current_ s;
     position_reference_ := position_reference_ s;
     velocity_reference_ := velocity_reference_ s;
     current_reference_ := current_reference_ s;
     cartesian_position_reference_ := cartesian_position_reference_ s;
     cartesian_velocity_reference_ := cartesian_velocity_reference_ s;
     ff_force_ := ff_force_ s; active_mask_ := active_mask_ s;
     zero_position_ := zero_position_ s;
     start_position_ := start_position_ s;
     position_gains_ := position_gains_ s;
     cartesian_position_gains_ := cartesian_position_gains_ s;
     direction_multipliers_ := direction_multipliers_ s;
     current_limit_ := current_limit_ s;
     homing_directions_ := homing_directions_ s;
     zero_positions_cmd_ := zero_positions_cmd_ s;
     initial_positions_ := initial_positions_ s;
     homed_axes_ := homed_axes_ s; just_homed_ := just_homed_ s;
     knee_soft_limit := knee_soft_limit s;
     last_commanded_current_ := last_commanded_current_ s;
     transition_start_time := transition_start_time s; start_positions := v;
     target_positions := target_positions s |}.

Definition set_target_positions (v : option ActuatorPositionVector) (s : DriveSystem) : DriveSystem :=
  {| front_bus_ := front_bus_ s; rear_bus_ := rear_bus_ s;
     control_mode_ := control_mode_ s; fault_current_ := fault_current_ s;
     fault_position_ := fault_position_ s;
     fault_velocity_ := fault_velocity_ s; max_current_ := max_current_ s;
     position_reference_ := position_reference_ s;
     velocity_reference_ := velocity_reference_ s;
     current_reference_ := current_reference_ s;
     cartesian_position_reference_ := cartesian_position_reference_ s;
     cartesian_velocity_reference_ := cartesian_velocity_reference_ s;
     ff_force_ := ff_force_ s; active_mask_ := active_mask_ s;
     zero_position_ := zero_position_ s;
     start_position_ := start_position_ s;
     position_gains_ := position_gains_ s;
     cartesian_position_gains_ := cartesian_position_gains_ s;
     direction_multipliers_ := direction_multipliers_ s;
     current_limit_ := current_limit_ s;
     homing_directions_ := homing_directions_ s;
     zero_positions_cmd_ := zero_positions_cmd_ s;
     initial_positions_ := initial_positions_ s;
     homed_axes_ := homed_axes_ s; just_homed_ := just_homed_ s;
     knee_soft_limit := knee_soft_limit s;
     last_commanded_current_ := last_commanded_current_ s;
     transition_start_time := transition_start_time s;
     start_positions := start_positions s; target_positions := v |}.


(** ** Reading the actuators *)

(** [CheckForCANMessages]: both buses poll.  What the controllers report is
    an input from outside; the poll replaces the telemetry by it. *)
Definition PollCAN (readings : list C610) (bus : C610Bus) : C610Bus :=
  mkC610Bus readings (sent bus).

Definition CheckForCANMessages (front rear : list C610) (s : DriveSystem)
    : DriveSystem :=
  let s := set_front_bus_ (PollCAN front (front_bus_ s)) s in
  set_rear_bus_ (PollCAN rear (rear_bus_ s)) s.

(** [GetController(i)].  The index is a [uint8_t], so it is never negative.
    An index past 11 puts the system in the error state and yields a default
    controller. *)
Definition GetController (i : nat) (s : DriveSystem) : C610 * DriveSystem :=
  if i <=? kNumActuatorsPerBus - 1 then (Get (front_bus_ s) i, s)
  else if (kNumActuatorsPerBus <=? i) && (i <=? kNumActuators - 1)
  then (Get (rear_bus_ s) (i - 6), s)
  else (C610_default, set_control_mode_ kError s).

(** The accessors below return the value read.  Each of their callers in
    this file passes an index below [kNumActuators], where [GetController]
    leaves the state alone ([GetController_in_range]). *)
Definition GetRawActuatorPosition (s : DriveSystem) (i : nat) : R :=
  Position (fst (GetController i s)).

Definition GetRawActuatorPositions (s : DriveSystem) : ActuatorPositionVector :=
  tabulate (GetRawActuatorPosition s).

Definition GetActuatorPosition (s : DriveSystem) (i : nat) : R :=
  (GetRawActuatorPosition s i - at_ (zero_position_ s) i)
  * at_ (direction_multipliers_ s) i.

Definition GetActuatorPositions (s : DriveSystem) : ActuatorPositionVector :=
  tabulate (GetActuatorPosition s).

Definition GetActuatorVelocity (s : DriveSystem) (i : nat) : R :=
  Velocity (fst (GetController i s)) * at_ (direction_multipliers_ s) i.

Definition GetActuatorCurrent (s : DriveSystem) (i : nat) : R :=
  Current (fst (GetController i s)) * at_ (direction_multipliers_ s) i.

Definition LegJointAngles (s : DriveSystem) (i : nat) : Vec3 :=
  (GetActuatorPosition s (3 * i), GetActuatorPosition s (3 * i + 1),
   GetActuatorPosition s (3 * i + 2)).

Definition LegJointVelocities (s : DriveSystem) (i : nat) : Vec3 :=
  (GetActuatorVelocity s (3 * i), GetActuatorVelocity s (3 * i + 1),
   GetActuatorVelocity s (3 * i + 2)).

Definition LegCartesianPositionReference (s : DriveSystem) (i : nat) : Vec3 :=
  (at_ (cartesian_position_reference_ s) (3 * i),
   at_ (cartesian_position_reference_ s) (3 * i + 1),
   at_ (cartesian_position_reference_ s) (3 * i + 2)).

Definition LegCartesianVelocityReference (s : DriveSystem) (i : nat) : Vec3 :=
  (at_ (cartesian_velocity_reference_ s) (3 * i),
   at_ (cartesian_velocity_reference_ s) (3 * i + 1),
   at_ (cartesian_velocity_reference_ s) (3 * i + 2)).

Definition LegFeedForwardForce (s : DriveSystem) (i : nat) : Vec3 :=
  (at_ (ff_force_ s) (3 * i), at_ (ff_force_ s) (3 * i + 1),
   at_ (ff_force_ s) (3 * i + 2)).

(** ** Fault check *)

(** The loop of [CheckErrors] from index [i] on, with its early returns. *)
Fixpoint CheckErrors_loop (s : DriveSystem) (idx : list nat) : DriveControlMode :=
  match idx with
  | [] => kIdle
  | i :: rest =>
      if Rgtb (Rabs (GetActuatorPosition s i)) (fault_position_ s) then kError
      else if Rgtb (Rabs (GetActuatorVelocity s i)) (fault_velocity_ s)
      then kError
      else CheckErrors_loop s rest
  end.

Definition CheckErrors (s : DriveSystem) : DriveControlMode :=
  CheckErrors_loop s (seq 0 kNumActuators).

(** ** Setters *)

Definition SetIdle (s : DriveSystem) : DriveSystem := set_control_mode_ kIdle s.

Definition SetActivations (acts : ActuatorActivations) (s : DriveSystem)
    : DriveSystem :=
  set_active_mask_ acts s.

Definition SetMaxCurrent (max_current : R) (s : DriveSystem) : DriveSystem :=
  set_max_current_ max_current s.

Definition SetFaultCurrent (fault_current : R) (s : DriveSystem) : DriveSystem :=
  set_fault_current_ fault_current s.

Definition SetFaultVelocity (fault_velocity : R) (s : DriveSystem) : DriveSystem :=
  set_fault_velocity_ fault_velocity s.

Definition ExecuteHomingSequence (s : DriveSystem) : DriveSystem :=
  let s := set_control_mode_ kHoming s in
  let s := set_homed_axes_ (tabulate (fun _ => false)) s in
  let s := SetActivations (fill true) s in
  SetMaxCurrent (current_limit_ s) s.

Definition SetZeroPositions (zero : ActuatorPositionVector) (s : DriveSystem)
    : DriveSystem :=
  set_zero_position_ zero s.

Definition ZeroCurrentPosition (s : DriveSystem) : DriveSystem :=
  SetZeroPositions (GetRawActuatorPositions s) s.

Definition SetJointPositions (pos : ActuatorPositionVector) (s : DriveSystem)
    : DriveSystem :=
  let s := set_control_mode_ kPositionControl s in
  set_position_reference_ pos s.

Definition SetCartesianPositions (pos : ActuatorPositionVector)
    (s : DriveSystem) : DriveSystem :=
  let s := set_control_mode_ kCartesianPositionControl s in
  set_cartesian_position_reference_ pos s.

Definition SetCartesianVelocities (vel : ActuatorVelocityVector)
    (s : DriveSystem) : DriveSystem :=
  let s := set_control_mode_ kCartesianPositionControl s in
  set_cartesian_velocity_reference_ vel s.

Definition SetFeedForwardForce (force : list R) (s : DriveSystem) : DriveSystem :=
  set_ff_force_ force s.

Definition SetCurrent (i : nat) (current_reference : R) (s : DriveSystem)
    : DriveSystem :=
  let s := set_control_mode_ kCurrentControl s in
  set_current_reference_ (array_set (current_reference_ s) i current_reference) s.

(** ** The command pipeline *)

Definition CommandCurrents (currents : ActuatorCurrentVector) (s : DriveSystem)
    : DriveSystem :=
  let current_command :=
    Utils.Constrain currents (- max_current_ s) (max_current_ s) in
  if Rgtb (Utils.Maximum current_command) (fault_current_ s)
     || Rltb (Utils.Minimum current_command) (- fault_current_ s)
  then set_control_mode_ kError s
  else
    (* Set disabled motors to zero current *)
    let current_command := Utils.MaskArray current_command (active_mask_ s) in
    (* Update record of last commanded current *)
    let s := set_last_commanded_current_ current_command s in
    (* Convert the currents into the motors' local frames *)
    let current_command :=
      Utils.ElemMultiply current_command (direction_multipliers_ s) in
    (* Convert from float array to int32 array in units milli amps. *)
    let currents_mA := Utils.ConvertToFixedPoint current_command 1000 in
    (* Send current commands down the CAN buses *)
    let s := set_front_bus_
      (CommandTorques (atz currents_mA 0) (atz currents_mA 1)
         (atz currents_mA 2) (atz currents_mA 3) kIDZeroToThree
         (front_bus_ s)) s in
    let s := set_front_bus_
      (CommandTorques (atz currents_mA 4) (atz currents_mA 5) 0 0
         kIDFourToSeven (front_bus_ s)) s in
    let s := set_rear_bus_
      (CommandTorques (atz currents_mA 6) (atz currents_mA 7)
         (atz currents_mA 8) (atz currents_mA 9) kIDZeroToThree
         (rear_bus_ s)) s in
    set_rear_bus_
      (CommandTorques (atz currents_mA 10) (atz currents_mA 11) 0 0
         kIDFourToSeven (rear_bus_ s)) s.

Definition CommandIdle (s : DriveSystem) : DriveSystem :=
  CommandCurrents (fill 0) s.

(** ** Homing and joint position control

    The homing case of [Update] up to its abort or its end. *)

(** [position_warning] after the loop over [start_position_]. *)
Definition position_warning (start_position : ActuatorPositionVector) : bool :=
  fold_left
    (fun warning i =>
       if Rgtb (Rabs (at_ start_position i)) (15 / 100) then true else warning)
    (seq 0 kNumActuators) false.

(** From the loop that sets the zero positions to the switch to position
    control. *)
Definition homing_complete (s : DriveSystem) : DriveSystem :=
  let s :=
    set_zero_position_
      (tabulate (fun i =>
         at_ (start_position_ s) i
         - (at_ (zero_positions_cmd_ s) i * at_ (direction_multipliers_ s) i
            * at_ (homing_directions_ s) i))) s in
  let s := set_homed_axes_ (tabulate (fun _ => true)) s in
  let non_constrained_positions :=
    tabulate (fun i => at_ (initial_positions_ s) i * at_ (homing_directions_ s) i) in
  let s :=
    set_position_reference_
      (Utils.Constrain non_constrained_positions (- PI) PI) s in
  let s := set_just_homed_ true s in
  set_control_mode_ kPositionControl s.

(** The value of a local [static] after its declaration was passed: the
    stored one, or the initialiser when this is the first pass. *)
Definition static_value {A : Type} (stored : option A) (init : A) : A :=
  match stored with
  | Some v => v
  | None => init
  end.

Definition transition_duration : R := 5000.

(** [millis() - transition_start_time] on [unsigned long]. *)
Definition elapsed (now start : Z) : Z := ((now - start) mod 2 ^ 32)%Z.

Definition clamp_progress (progress : R) : R :=
  if Rltb progress 0 then 0 else if Rgtb progress 1 then 1 else progress.

Definition smooth_progress (progress : R) : R :=
  / 2 - / 2 * cos (progress * PI).

Definition interpolate (start target smooth : R) : R :=
  start + (target - start) * smooth.

Definition pd_currents (s : DriveSystem) (targets : ActuatorPositionVector)
    : ActuatorCurrentVector :=
  tabulate (fun i =>
    PD (GetActuatorPosition s i) (GetActuatorVelocity s i)
       (at_ targets i) (at_ (velocity_reference_ s) i) (position_gains_ s)).

(** The position-control case of [Update].  [now] is what [millis()]
    returns during this tick, in the initialiser of [transition_start_time]
    and in the computation of [progress] alike. *)
Definition position_control_case (now : Z) (s : DriveSystem) : DriveSystem :=
  if just_homed_ s then
    let t0 := static_value (transition_start_time s) now in
    let starts := static_value (start_positions s) (GetActuatorPositions s) in
    let targets := static_value (target_positions s) (position_reference_ s) in
    let s := set_transition_start_time (Some t0) s in
    let s := set_start_positions (Some starts) s in
    let s := set_target_positions (Some targets) s in
    let progress := IZR (elapsed now t0) / transition_duration in
    let progress := clamp_progress progress in
    let smooth := smooth_progress progress in
    let interpolated_positions :=
      tabulate (fun i => interpolate (at_ starts i) (at_ targets i) smooth) in
    let s := CommandCurrents (pd_currents s interpolated_positions) s in
    if Rgeb progress 1 then set_just_homed_ false s else s
  else
    CommandCurrents (pd_currents s (position_reference_ s)) s.

Definition homing_case (now : Z) (s : DriveSystem) : DriveSystem :=
  let s := set_start_position_ (GetRawActuatorPositions s) s in
  if position_warning (start_position_ s)
  then set_control_mode_ kError s
  else position_control_case now (homing_complete s).

(** ** Cartesian control and the tick *)

Section Kinematics.

(** [Kinematics.h] is not part of the sources at hand and the spec gives the
    three functions by their interface only ("stateless pure functions").
    They are parameters, with the constant members [leg_parameters_] and
    [hip_layout_parameters_] folded in. *)
Variable ForwardKinematics : Vec3 -> nat -> Vec3.
Variable LegJacobian : Vec3 -> nat -> Mat3.
Variable HipPosition : nat -> Vec3.

Definition vec3_list (v : Vec3) : list R := [v0 v; v1 v; v2 v].

Definition DefaultCartesianPositions : ActuatorPositionVector :=
  flat_map
    (fun i => vec3_list (vadd (ForwardKinematics (0, 0, 0) i) (HipPosition i)))
    (seq 0 4).

Definition SetDefaultCartesianPositions (s : DriveSystem) : DriveSystem :=
  set_cartesian_position_reference_ DefaultCartesianPositions s.

(** [~jac * cartesian_forces] of leg [leg_index]. *)
Definition leg_joint_torques (s : DriveSystem) (leg_index : nat) : Vec3 :=
  let joint_angles := LegJointAngles s leg_index in
  let joint_velocities := LegJointVelocities s leg_index in
  let jac := LegJacobian joint_angles leg_index in
  let measured_hip_relative_positions :=
    ForwardKinematics joint_angles leg_index in
  let measured_velocities := mvmul jac joint_velocities in
  let reference_hip_relative_positions :=
    vsub (LegCartesianPositionReference s leg_index) (HipPosition leg_index) in
  let reference_velocities := LegCartesianVelocityReference s leg_index in
  let cartesian_forces :=
    vadd (PDControl3 measured_hip_relative_positions measured_velocities
            reference_hip_relative_positions reference_velocities
            (cartesian_position_gains_ s))
         (LegFeedForwardForce s leg_index) in
  mvmul (transpose jac) cartesian_forces.

Definition knee_constraint_torque (s : DriveSystem) (leg_index : nat) : R :=
  let knee_angle := v2 (LegJointAngles s leg_index) in
  if Rgtb knee_angle (knee_soft_limit s)
  then kp (position_gains_ s) * (knee_soft_limit s - knee_angle)
  else 0.

(** The saturation written inline in [CartesianPositionControl]:
    "ensures that the direction of the force is preserved when motors
    saturate". *)
Definition saturate (joint_torques : Vec3) (max_current : R) : Vec3 :=
  let norm := Utils.InfinityNorm3 joint_torques in
  if Rgtb norm max_current
  then vdiv (vscale joint_torques max_current) norm
  else joint_torques.

(** One iteration of the loop of [CartesianPositionControl]: the three
    entries written to [actuator_torques] for leg [leg_index]. *)
Definition leg_actuator_torques (s : DriveSystem) (leg_index : nat) : Vec3 :=
  let knee_constraint_torque := knee_constraint_torque s leg_index in
  let joint_torques := leg_joint_torques s leg_index in
  let joint_torques := saturate joint_torques (max_current_ s) in
  (v0 joint_torques, v1 joint_torques, v2 joint_torques + knee_constraint_torque).

Definition CartesianPositionControl (s : DriveSystem) : list R :=
  flat_map (fun leg_index => vec3_list (leg_actuator_torques s leg_index))
    (seq 0 4).

(** [Update].  [Utils::VectorToArray<12, 12>] turns the 12-vector of
    [CartesianPositionControl] into an array of the same 12 values; both are
    lists here. *)
Definition Update (now : Z) (s : DriveSystem) : DriveSystem :=
  (* If there are errors, put the system in the error state. *)
  let s :=
    match CheckErrors s with
    | kError => set_control_mode_ kError s
    | _ => s
    end in
  match control_mode_ s with
  | kError => CommandIdle s
  | kIdle => CommandIdle s
  | kHoming => homing_case now s
  | kPositionControl => position_control_case now s
  | kCartesianPositionControl => CommandCurrents (CartesianPositionControl s) s
  | kCurrentControl => CommandCurrents (current_reference_ s) s
  end.

(** The constructor.  The members it does not initialise
    ([position_gains_], [cartesian_velocity_reference_], [ff_force_],
    [last_commanded_current_]) are taken as arguments.  No local [static] of
    [Update] has been initialised when the object is built. *)

Definition backlash : R := 2 / 80.
Definition abduction_zero_position : R := 0 + backlash.
Definition hip_zero_position : R := (90 - 30) * PI / 180 + backlash.
Definition knee_zero_position : R := (180 - 30) * PI / 180 + backlash.
Definition abduction_init_position : R := 45 * PI / 180 + backlash.
Definition hip_init_position : R := 90 * PI / 180 + backlash.
Definition knee_init_position : R := (180 - 15) * PI / 180 + backlash.

Definition new_bus : C610Bus := mkC610Bus (repeat C610_default 8) [].

Definition DriveSystem_new (position_gains : PDGains)
    (cartesian_velocity_reference ff_force last_commanded_current : list R)
    : DriveSystem :=
  SetDefaultCartesianPositions
  {| front_bus_ := new_bus;
     rear_bus_ := new_bus;
     control_mode_ := kIdle;
     fault_current_ := 10;
     fault_position_ := PI;
     fault_velocity_ := 7;
     max_current_ := 0;
     position_reference_ := fill 0;
     velocity_reference_ := fill 0;
     current_reference_ := fill 0;
     cartesian_position_reference_ := fill 0;
     cartesian_velocity_reference_ := cartesian_velocity_reference;
     ff_force_ := ff_force;
     active_mask_ := fill false;
     zero_position_ := fill 0;
     start_position_ := fill 0;
     position_gains_ := position_gains;
     cartesian_position_gains_ := mkPDGains3x3 mzero mzero;
     direction_multipliers_ := [-1; -1; 1; -1; 1; -1; -1; -1; 1; -1; 1; -1];
     current_limit_ := 2;
     homing_directions_ := [-1; 1; -1; 1; 1; -1; -1; 1; -1; 1; 1; -1];
     zero_positions_cmd_ :=
       [abduction_zero_position; hip_zero_position; knee_zero_position;
        abduction_zero_position; hip_zero_position; knee_zero_position;
        abduction_zero_position; hip_zero_position; knee_zero_position;
        abduction_zero_position; hip_zero_position; knee_zero_position];
     initial_positions_ :=
       [abduction_init_position; hip_init_position; knee_init_position;
        abduction_init_position; hip_init_position; knee_init_position;
        abduction_init_position; hip_init_position; knee_init_position;
        abduction_init_position; hip_init_position; knee_init_position];
     homed_axes_ := fill false;
     just_homed_ := false;
     knee_soft_limit := - PI / 6;
     last_commanded_current_ := last_commanded_current;
     transition_start_time := None;
     start_positions := None;
     target_positions := None |}.

End Kinematics.

(** ** Vocabulary of the properties *)

(** The test that guards the error branch of [CommandCurrents]. *)
Definition fault_gate (current_command : list R) (fault_current : R) : bool :=
  Rgtb (Utils.Maximum current_command) fault_current
  || Rltb (Utils.Minimum current_command) (- fault_current).

(** What [CommandCurrents] hands to the buses for the masked command
    [current_command]. *)
Definition commanded_mA (s : DriveSystem) (current_command : list R) : list Z :=
  Utils.ConvertToFixedPoint
    (Utils.ElemMultiply current_command (direction_multipliers_ s)) 1000.

Definition front_commands (mA : list Z) : list TorqueCommand :=
  [mkTorqueCommand (atz mA 0) (atz mA 1) (atz mA 2) (atz mA 3) kIDZeroToThree;
   mkTorqueCommand (atz mA 4) (atz mA 5) 0 0 kIDFourToSeven].

Definition rear_commands (mA : list Z) : list TorqueCommand :=
  [mkTorqueCommand (atz mA 6) (atz mA 7) (atz mA 8) (atz mA 9) kIDZeroToThree;
   mkTorqueCommand (atz mA 10) (atz mA 11) 0 0 kIDFourToSeven].

(** The two calls that carry zero current to every motor of a bus. *)
Definition zero_commands : list TorqueCommand :=
  [mkTorqueCommand 0 0 0 0 kIDZeroToThree;
   mkTorqueCommand 0 0 0 0 kIDFourToSeven].

(** Between [s] and [s'] both buses were commanded all-zero current, and
    nothing else. *)
Definition commands_all_zero (s s' : DriveSystem) : Prop :=
  sent (front_bus_ s') = sent (front_bus_ s) ++ zero_commands
  /\ sent (rear_bus_ s') = sent (rear_bus_ s) ++ zero_commands.

(** Nothing was sent to either bus between [s] and [s']. *)
Definition sends_nothing (s s' : DriveSystem) : Prop :=
  sent (front_bus_ s') = sent (front_bus_ s)
  /\ sent (rear_bus_ s') = sent (rear_bus_ s).

(** Some actuator is past its position or velocity fault threshold. *)
Definition actuator_fault (s : DriveSystem) : Prop :=
  exists i, (i < kNumActuators)%nat
    /\ (Rabs (GetActuatorPosition s i) > fault_position_ s
        \/ Rabs (GetActuatorVelocity s i) > fault_velocity_ s).

(** The snapshot that opens the homing case. *)
Definition snapshot (s : DriveSystem) : DriveSystem :=
  set_start_position_ (GetRawActuatorPositions s) s.

(** Passing the declarations of the three local [static]s of [Update]. *)
Definition latch_statics (now : Z) (s : DriveSystem) : DriveSystem :=
  let t0 := static_value (transition_start_time s) now in
  let starts := static_value (start_positions s) (GetActuatorPositions s) in
  let targets := static_value (target_positions s) (position_reference_ s) in
  set_target_positions (Some targets)
    (set_start_positions (Some starts)
       (set_transition_start_time (Some t0) s)).

(** The clamped progress of the handoff during the tick at [now]. *)
Definition handoff_progress (now : Z) (s : DriveSystem) : R :=
  clamp_progress
    (IZR (elapsed now (static_value (transition_start_time s) now))
     / transition_duration).

(** The current vector that the position-control case hands to the
    pipeline. *)
Definition position_control_currents (now : Z) (s : DriveSystem)
    : ActuatorCurrentVector :=
  if just_homed_ s then
    let starts := static_value (start_positions s) (GetActuatorPositions s) in
    let targets := static_value (target_positions s) (position_reference_ s) in
    let smooth := smooth_progress (handoff_progress now s) in
    pd_currents s
      (tabulate (fun i => interpolate (at_ starts i) (at_ targets i) smooth))
  else pd_currents s (position_reference_ s).

(** What a tick never writes: the telemetry, the wiring signs, the limits
    and the homing constants are the same in [s] and [s']. *)
Definition same_setup (s s' : DriveSystem) : Prop :=
  controllers (front_bus_ s') = controllers (front_bus_ s)
  /\ controllers (rear_bus_ s') = controllers (rear_bus_ s)
  /\ direction_multipliers_ s' = direction_multipliers_ s
  /\ fault_current_ s' = fault_current_ s
  /\ fault_position_ s' = fault_position_ s
  /\ fault_velocity_ s' = fault_velocity_ s
  /\ max_current_ s' = max_current_ s
  /\ current_limit_ s' = current_limit_ s
  /\ zero_positions_cmd_ s' = zero_positions_cmd_ s
  /\ homing_directions_ s' = homing_directions_ s
  /\ initial_positions_ s' = initial_positions_ s.

(** A run of [Update] calls, one per element of [ticks], each with the
    value of [millis()] at that tick. *)
Fixpoint run_ticks (ForwardKinematics : Vec3 -> nat -> Vec3)
    (LegJacobian : Vec3 -> nat -> Mat3) (HipPosition : nat -> Vec3)
    (ticks : list Z) (s : DriveSystem) : DriveSystem :=
  match ticks with
  | [] => s
  | now :: rest =>
      run_ticks ForwardKinematics LegJacobian HipPosition rest
        (Update ForwardKinematics LegJacobian HipPosition now s)
  end.

(** ** States for the examples

    A direct-drive stand-in for the kinematics (the foot position is the
    joint-angle vector, the hips are at the origin), and the state right
    after construction with joint gains [kp = 1], [kd = 0]. *)

Definition toy_ForwardKinematics (joint_angles : Vec3) (leg : nat) : Vec3 :=
  joint_angles.
Definition toy_LegJacobian (joint_angles : Vec3) (leg : nat) : Mat3 :=
  ((1, 0, 0), (0, 1, 0), (0, 0, 1)).
Definition toy_HipPosition (leg : nat) : Vec3 := vzero.

Definition toy_Update : Z -> DriveSystem -> DriveSystem :=
  Update toy_ForwardKinematics toy_LegJacobian toy_HipPosition.

Definition toy_CartesianPositionControl : DriveSystem -> list R :=
  CartesianPositionControl toy_ForwardKinematics toy_LegJacobian
    toy_HipPosition.

Definition fresh : DriveSystem :=
  DriveSystem_new toy_ForwardKinematics toy_HipPosition
    (mkPDGains 1 0) (fill 0) (fill 0) (fill 0).

(** The telemetry of a bus whose controller 0 reports the raw position
    [p], the others reporting zero. *)
Definition readings_pos0 (p : R) : list C610 :=
  mkC610 p 0 0 0 0 :: repeat C610_default 7.

(** Actuator 0 reports the raw position 5 (more than [PI]) right after
    construction. *)
Definition overtravel : DriveSystem :=
  CheckForCANMessages (readings_pos0 5) (repeat C610_default 8) fresh.

(** The same, after [SetFaultCurrent(-1)]. *)
Definition overtravel_negative_fault_current : DriveSystem :=
  CheckForCANMessages (readings_pos0 5) (repeat C610_default 8)
    (SetFaultCurrent (-1) fresh).

(** The state after the tick that found actuator 0 past the position
    threshold: the system is in the error state. *)
Definition faulted : DriveSystem := toy_Update 0 overtravel.

(** [SetMaxCurrent(-20)] on the freshly constructed system. *)
Definition negative_max_current : DriveSystem := SetMaxCurrent (-20) fresh.

(** Homing was requested right after construction; every controller
    reports the raw position 0. *)
Definition homing_requested : DriveSystem := ExecuteHomingSequence fresh.

(** Homing was requested, and actuator 0 reports the raw position 1/2. *)
Definition homing_far_from_stop : DriveSystem :=
  CheckForCANMessages (readings_pos0 (1 / 2)) (repeat C610_default 8)
    (ExecuteHomingSequence fresh).

(** The telemetry of a bus whose controller 0 reports the velocity [v],
    the others reporting zero. *)
Definition readings_vel0 (v : R) : list C610 :=
  mkC610 0 v 0 0 0 :: repeat C610_default 7.

(** Joint gains [kp = 1], [kd = 1] and [SetFaultCurrent(1/2)]; homing was
    requested, every controller reports the raw position 0 and actuator 0
    the velocity 1. *)
Definition homing_low_fault_current : DriveSystem :=
  CheckForCANMessages (readings_vel0 1) (repeat C610_default 8)
    (ExecuteHomingSequence
       (SetFaultCurrent (1 / 2)
          (DriveSystem_new toy_ForwardKinematics toy_HipPosition
             (mkPDGains 1 1) (fill 0) (fill 0) (fill 0)))).

(** A second homing sequence in the same process: homing is requested and
    completes at t = 1000 ms, the handoff ends on the tick at t = 6000 ms,
    homing is requested again and completes at t = 20000 ms. *)
Definition first_handoff : DriveSystem := toy_Update 1000 homing_requested.
Definition handoff_done : DriveSystem := toy_Update 6000 first_handoff.
Definition second_homing_requested : DriveSystem :=
  ExecuteHomingSequence handoff_done.
Definition second_handoff : DriveSystem :=
  toy_Update 20000 second_homing_requested.

(** ** Homing status, telemetry snapshots and printing *)

(** [CheckHomingStatus(axes)]: false at the first axis that is not homed. *)
Fixpoint CheckHomingStatus (s : DriveSystem) (axes : list nat) : bool :=
  match axes with
  | [] => true
  | i :: rest =>
      if negb (atb (homed_axes_ s) i) then false
      else CheckHomingStatus s rest
  end.

(** The axis groups that the constructor stores. *)
Definition knee_axes_ : list nat := [2; 5; 8; 11]%nat.
Definition hip_axes_ : list nat := [1; 4; 7; 10]%nat.
Definition right_abduction_axes_ : list nat := [0; 6]%nat.
Definition left_abduction_axes_ : list nat := [3; 9]%nat.

(** The member [imu] as [DriveSystem] reads it.  No function modelled here
    writes it ([SetupIMU] and [UpdateIMU] hand over to the sensor), so the
    functions that read it take it as an argument. *)
Record IMU : Type := mkIMU {
  yaw : R;
  pitch : R;
  roll : R;
  yaw_rate : R;
  pitch_rate : R;
  roll_rate : R
}.

(** [DebugData]: the time stamp, the six orientation values, then seven
    values per actuator.  [millis()] is stored as a float. *)
Definition DebugData (now : Z) (imu : IMU) (s : DriveSystem) : list R :=
  [IZR now; yaw imu; pitch imu; roll imu;
   yaw_rate imu; pitch_rate imu; roll_rate imu]
  ++ flat_map
       (fun i =>
          [GetActuatorPosition s i; GetActuatorVelocity s i;
           GetActuatorCurrent s i; at_ (position_reference_ s) i;
           at_ (velocity_reference_ s) i; at_ (current_reference_ s) i;
           at_ (last_commanded_current_ s) i])
       (seq 0 kNumActuators).

(** [DrivePrintOptions], as [PrintHeader] and [PrintStatus] use it (its
    declaration is in the missing header). *)
Record DrivePrintOptions : Type := mkDrivePrintOptions {
  time : bool;
  positions : bool;
  velocities : bool;
  currents : bool;
  position_references : bool;
  velocity_references : bool;
  current_references : bool;
  last_current : bool;
  delimiter : ascii
}.

(** A printed line is the list of its columns: each column is followed by
    the delimiter on [Serial], and the line by [endl]. *)

Definition when {A : Type} (b : bool) (x : A) : list A :=
  if b then [x] else [].

(** [Serial << name << "[" << i << "]"]. *)
Definition label (name : string) (i : nat) : string :=
  (name ++ "[" ++ NilZero.string_of_uint (Nat.to_uint i) ++ "]")%string.

(** [PrintHeader]: the column titles. *)
Definition PrintHeader (options : DrivePrintOptions) (s : DriveSystem)
    : list string :=
  when (time options) "T"%string
  ++ flat_map
       (fun i =>
          if negb (atb (active_mask_ s) i) then []
          else
            when (positions options) (label "p" i)
            ++ when (velocities options) (label "v" i)
            ++ when (currents options) (label "I" i)
            ++ when (position_references options) (label "pr" i)
            ++ when (velocity_references options) (label "vr" i)
            ++ when (current_references options) (label "Ir" i)
            ++ when (last_current options) (label "Il" i))
       (seq 0 kNumActuators).

(** [PrintStatus]: the numbers of one line, before their conversion to
    text (which is not modelled). *)
Definition PrintStatus (options : DrivePrintOptions) (now : Z) (imu : IMU)
    (s : DriveSystem) : list R :=
  when (time options) (IZR now)
  ++ [yaw imu; pitch imu; roll imu;
      yaw_rate imu; pitch_rate imu; roll_rate imu]
  ++ flat_map
       (fun i =>
          if negb (atb (active_mask_ s) i) then []
          else
            when (positions options) (GetActuatorPosition s i)
            ++ when (velocities options) (GetActuatorVelocity s i)
            ++ when (currents options) (GetActuatorCurrent s i)
            ++ when (position_references options)
                 (at_ (position_reference_ s) i)
            ++ when (velocity_references options)
                 (at_ (velocity_reference_ s) i)
            ++ when (current_references options)
                 (at_ (current_reference_ s) i)
            ++ when (last_current options)
                 (at_ (last_commanded_current_ s) i))
       (seq 0 kNumActuators).

(** The four bytes that [PrintMsgPackStatus] writes ahead of the packed
    document: two marker bytes and the length [num_bytes] (a [uint16_t],
    the result of [measureMsgPack]), high byte first. *)
Definition msgpack_frame_header (num_bytes : Z) : list Z :=
  [69; 69; Z.land (Z.shiftr num_bytes 8) 255; Z.land num_bytes 255]%Z.

(** ** Vocabulary of the further properties *)

(** What no tick writes: limits, gains, references other than
    [position_reference_], the activation mask, the wiring and homing
    constants, and the telemetry of both buses. *)
Definition configuration (s : DriveSystem) :=
  (fault_current_ s, fault_position_ s, fault_velocity_ s, max_current_ s,
   current_limit_ s, knee_soft_limit s,
   position_gains_ s, cartesian_position_gains_ s,
   velocity_reference_ s, current_reference_ s,
   cartesian_position_reference_ s, cartesian_velocity_reference_ s,
   ff_force_ s, active_mask_ s,
   direction_multipliers_ s, homing_directions_ s, zero_positions_cmd_ s,
   initial_positions_ s,
   controllers (front_bus_ s), controllers (rear_bus_ s)).

(** What homing establishes. *)
Definition calibration (s : DriveSystem) :=
  (zero_position_ s, homed_axes_ s, position_reference_ s).

(** Between [s] and [s'] the four calls of one dispatch were issued, with
    the milliamp values [mA], and nothing else. *)
Definition dispatched (s s' : DriveSystem) (mA : list Z) : Prop :=
  sent (front_bus_ s') = sent (front_bus_ s) ++ front_commands mA
  /\ sent (rear_bus_ s') = sent (rear_bus_ s) ++ rear_commands mA.

(** ** Single precision

    Where a property turns on rounding, the [float] of the target is IEEE
    754 binary32 (24 bits of precision, exponents below 128, round to
    nearest even), with the operations of [SpecFloat].  A finite value
    [S754_finite sign m e] is [m * 2^e], negated when [sign] is true. *)

Definition float32 : Type := spec_float.

Definition add32 : float32 -> float32 -> float32 := SFadd 24 128.
Definition sub32 : float32 -> float32 -> float32 := SFsub 24 128.
Definition mul32 : float32 -> float32 -> float32 := SFmul 24 128.

(** [x] is a value of the format. *)
Definition is_float32 (x : float32) : bool := valid_binary 24 128 x.

(** [0.0f], [1.0f] and [-1.0f]. *)
Definition zero32 : float32 := S754_zero false.
Definition one32 : float32 := S754_finite false 8388608 (-23).
Definition minus_one32 : float32 := S754_finite true 8388608 (-23).

(** The zero offset that the homing case assigns:
    [start_position_[i] - (zero_positions_cmd_[i] * direction_multipliers_[i]
     * homing_directions_[i])]. *)
Definition homing_zero_position32
    (start_position zero_cmd direction homing_direction : float32) : float32 :=
  sub32 start_position (mul32 (mul32 zero_cmd direction) homing_direction).

(** [GetActuatorPosition(i)]:
    [(GetRawActuatorPosition(i) - zero_position_[i])
     * direction_multipliers_[i]]. *)
Definition GetActuatorPosition32 (raw zero_position direction : float32)
    : float32 :=
  mul32 (sub32 raw zero_position) direction.

(** [interpolated_positions[i]]:
    [start_positions[i]
     + (target_positions[i] - start_positions[i]) * smooth_progress]. *)
Definition interpolate32 (start target smooth : float32) : float32 :=
  add32 start (mul32 (sub32 target start) smooth).

(** The constants of the constructor for an abduction actuator, as the
    [float] variables hold them: [abduction_zero_position = 0 + backlash]
    with [backlash = 2.0 / 80.0] is [0x3ccccccd], and
    [abduction_init_position = 45 * PI / 180 + backlash] is [0x3f4f7641]. *)
Definition abduction_zero_position32 : float32 :=
  S754_finite false 13421773 (-29).
Definition abduction_init_position32 : float32 :=
  S754_finite false 13596225 (-24).

(** The left abduction actuator 3 (wiring sign -1, homing direction 1) is
    homed from the raw position [0.149f = 0x3e189375]: its calibrated
    position right after homing is where the handoff starts, and its
    position reference ([initial_positions_[3] * homing_directions_[3]],
    which the clamp to [-PI, PI] leaves alone) is the target. *)
Definition raw_position32 : float32 := S754_finite false 9999221 (-26).

Definition handoff_start32 : float32 :=
  GetActuatorPosition32 raw_position32
    (homing_zero_position32 raw_position32 abduction_zero_position32
       minus_one32 one32)
    minus_one32.

Definition handoff_target32 : float32 :=
  mul32 abduction_init_position32 one32.

(** * Properties *)

(** ** Comparisons *)

Lemma Rgtb_true (x y : R) : Rgtb x y = true <-> x > y.
Proof. unfold Rgtb. destruct (Rgt_dec x y); split; intros; try easy. Qed.

Lemma Rgtb_false (x y : R) : Rgtb x y = false <-> x <= y.
Proof.
  unfold Rgtb. destruct (Rgt_dec x y); split; intros; try easy; lra.
Qed.

Lemma Rltb_true (x y : R) : Rltb x y = true <-> x < y.
Proof. unfold Rltb. destruct (Rlt_dec x y); split; intros; try easy. Qed.

Lemma Rltb_false (x y : R) : Rltb x y = false <-> y <= x.
Proof.
  unfold Rltb. destruct (Rlt_dec x y); split; intros; try easy; lra.
Qed.

Lemma Rgeb_true (x y : R) : Rgeb x y = true <-> x >= y.
Proof. unfold Rgeb. destruct (Rge_dec x y); split; intros; try easy. Qed.

Lemma Rgeb_false (x y : R) : Rgeb x y = false <-> x < y.
Proof.
  unfold Rgeb. destruct (Rge_dec x y); split; intros; try easy; lra.
Qed.

(** Decide the comparisons of a goal over concrete numbers. *)
Ltac rdec :=
  unfold Rgtb, Rltb, Rgeb;
  repeat match goal with
    | |- context [Rgt_dec ?a ?b] => destruct (Rgt_dec a b); try lra
    | |- context [Rlt_dec ?a ?b] => destruct (Rlt_dec a b); try lra
    | |- context [Rge_dec ?a ?b] => destruct (Rge_dec a b); try lra
    end.

(** ** The helpers of [Utils] *)

Lemma constrain_range (x lo hi : R) :
  lo <= hi -> lo <= Utils.constrain x lo hi <= hi.
Proof. intros H. unfold Utils.constrain. rdec. Qed.

Lemma constrain_inside (x lo hi : R) :
  lo <= x <= hi -> Utils.constrain x lo hi = x.
Proof. intros H. unfold Utils.constrain. rdec. Qed.

Lemma Constrain_length (arr : list R) (lo hi : R) :
  length (Utils.Constrain arr lo hi) = length arr.
Proof. apply length_map. Qed.

Lemma Constrain_range (arr : list R) (lo hi x : R) :
  lo <= hi -> In x (Utils.Constrain arr lo hi) -> lo <= x <= hi.
Proof.
  intros H Hin. unfold Utils.Constrain in Hin.
  apply in_map_iff in Hin. destruct Hin as [y [<- _]].
  now apply constrain_range.
Qed.

Lemma fold_Rmax_gt (t : list R) (x f : R) :
  fold_left Rmax t x > f <-> x > f \/ exists y, In y t /\ y > f.
Proof.
  revert x. induction t as [|a t IH]; intros x; simpl.
  - split; [now left | intros [H | [y [[] _]]]; exact H].
  - rewrite IH. split.
    + intros [H | [y [Hy Hgt]]].
      * unfold Rmax in H. destruct (Rle_dec x a).
        -- right. exists a. auto.
        -- now left.
      * right. exists y. auto.
    + intros [H | [y [[-> | Hy] Hgt]]].
      * left. pose proof (Rmax_l x a). lra.
      * left. pose proof (Rmax_r x y). lra.
      * right. exists y. auto.
Qed.

Lemma fold_Rmin_lt (t : list R) (x f : R) :
  fold_left Rmin t x < f <-> x < f \/ exists y, In y t /\ y < f.
Proof.
  revert x. induction t as [|a t IH]; intros x; simpl.
  - split; [now left | intros [H | [y [[] _]]]; exact H].
  - rewrite IH. split.
    + intros [H | [y [Hy Hlt]]].
      * unfold Rmin in H. destruct (Rle_dec x a).
        -- now left.
        -- right. exists a. auto.
      * right. exists y. auto.
    + intros [H | [y [[-> | Hy] Hlt]]].
      * left. pose proof (Rmin_l x a). lra.
      * left. pose proof (Rmin_r x y). lra.
      * right. exists y. auto.
Qed.

Lemma Maximum_gt (arr : list R) (f : R) :
  arr <> [] -> (Utils.Maximum arr > f <-> exists y, In y arr /\ y > f).
Proof.
  destruct arr as [|x t]; [easy | intros _]. simpl.
  rewrite fold_Rmax_gt. split.
  - intros [H | [y [Hy H]]]; [exists x | exists y]; auto.
  - intros [y [[-> | Hy] H]]; [now left | right; exists y; auto].
Qed.

Lemma Minimum_lt (arr : list R) (f : R) :
  arr <> [] -> (Utils.Minimum arr < f <-> exists y, In y arr /\ y < f).
Proof.
  destruct arr as [|x t]; [easy | intros _]. simpl.
  rewrite fold_Rmin_lt. split.
  - intros [H | [y [Hy H]]]; [exists x | exists y]; auto.
  - intros [y [[-> | Hy] H]]; [now left | right; exists y; auto].
Qed.

Lemma fault_gate_true (arr : list R) (f : R) :
  arr <> [] ->
  (fault_gate arr f = true <-> exists y, In y arr /\ Rabs y > f).
Proof.
  intros Hne. unfold fault_gate.
  rewrite orb_true_iff, Rgtb_true, Rltb_true.
  rewrite (Maximum_gt arr f Hne), (Minimum_lt arr (- f) Hne).
  split.
  - intros [[y [Hy H]] | [y [Hy H]]]; exists y; split; auto.
    + pose proof (Rle_abs y). lra.
    + pose proof (Rle_abs (- y)). rewrite Rabs_Ropp in H0. lra.
  - intros [y [Hy H]].
    unfold Rabs in H. destruct (Rcase_abs y).
    + right. exists y. split; auto. lra.
    + left. exists y. split; auto.
Qed.

Lemma fault_gate_within (arr : list R) (f : R) :
  0 <= f -> (forall y, In y arr -> - f <= y <= f) -> fault_gate arr f = false.
Proof.
  intros Hf Hall. destruct arr as [|x t].
  - unfold fault_gate. simpl. apply orb_false_iff.
    rewrite Rgtb_false, Rltb_false. lra.
  - destruct (fault_gate (x :: t) f) eqn:E; [|reflexivity].
    apply fault_gate_true in E; [|easy].
    destruct E as [y [Hy H]]. specialize (Hall y Hy).
    unfold Rabs in H. destruct (Rcase_abs y); lra.
Qed.

Lemma fault_gate_clamped (currents : list R) (max_current fault_current : R) :
  0 <= max_current <= fault_current ->
  fault_gate (Utils.Constrain currents (- max_current) max_current)
    fault_current = false.
Proof.
  intros H. apply fault_gate_within; [lra|]. intros y Hy.
  apply Constrain_range in Hy; lra.
Qed.

(** ** The command pipeline *)

Lemma CommandCurrents_fault (currents : list R) (s : DriveSystem) :
  fault_gate (Utils.Constrain currents (- max_current_ s) (max_current_ s))
    (fault_current_ s) = true ->
  CommandCurrents currents s = set_control_mode_ kError s.
Proof.
  intros H. unfold CommandCurrents. unfold fault_gate in H. now rewrite H.
Qed.

(** What the pipeline leaves behind when the gate lets the command through. *)
Lemma CommandCurrents_pass (currents : list R) (s : DriveSystem) :
  fault_gate (Utils.Constrain currents (- max_current_ s) (max_current_ s))
    (fault_current_ s) = false ->
  let current_command :=
    Utils.MaskArray
      (Utils.Constrain currents (- max_current_ s) (max_current_ s))
      (active_mask_ s) in
  let s' := CommandCurrents currents s in
  control_mode_ s' = control_mode_ s
  /\ last_commanded_current_ s' = current_command
  /\ sent (front_bus_ s')
     = sent (front_bus_ s) ++ front_commands (commanded_mA s current_command)
  /\ sent (rear_bus_ s')
     = sent (rear_bus_ s) ++ rear_commands (commanded_mA s current_command).
Proof.
  intros H. unfold CommandCurrents. unfold fault_gate in H. rewrite H.
  cbn. repeat split; rewrite <- app_assoc; reflexivity.
Qed.

(** The fields that no branch of the pipeline writes. *)
Lemma CommandCurrents_frame (currents : list R) (s : DriveSystem) :
  let s' := CommandCurrents currents s in
  zero_position_ s' = zero_position_ s
  /\ homed_axes_ s' = homed_axes_ s
  /\ position_reference_ s' = position_reference_ s
  /\ just_homed_ s' = just_homed_ s
  /\ transition_start_time s' = transition_start_time s
  /\ start_positions s' = start_positions s
  /\ target_positions s' = target_positions s
  /\ start_position_ s' = start_position_ s
  /\ controllers (front_bus_ s') = controllers (front_bus_ s)
  /\ controllers (rear_bus_ s') = controllers (rear_bus_ s).
Proof.
  unfold CommandCurrents.
  destruct (_ || _); cbn; repeat split; reflexivity.
Qed.

Lemma CommandCurrents_mode (currents : list R) (s : DriveSystem) :
  control_mode_ (CommandCurrents currents s) = kError
  \/ control_mode_ (CommandCurrents currents s) = control_mode_ s.
Proof.
  unfold CommandCurrents. destruct (_ || _); cbn; auto.
Qed.

Lemma CommandCurrents_keeps_error (currents : list R) (s : DriveSystem) :
  control_mode_ s = kError ->
  control_mode_ (CommandCurrents currents s) = kError.
Proof.
  intros H. destruct (CommandCurrents_mode currents s) as [E | E]; congruence.
Qed.

Lemma nth_In_lt (arr : list R) (y : R) :
  In y arr <-> exists i, (i < length arr)%nat /\ at_ arr i = y.
Proof.
  unfold at_. split.
  - intros H. destruct (In_nth arr y 0 H) as [i [Hi E]]. eauto.
  - intros [i [Hi <-]]. now apply nth_In.
Qed.

(** C1.  For every requested 12-element current vector, if after clamping
    each element to [-max_current, max_current] some element's magnitude
    exceeds [fault_current], then [CommandCurrents] sets the control mode to
    Error, sends nothing to either bus, and leaves
    [last_commanded_current_] unchanged. *)
Theorem CommandCurrents_fault_gate (currents : ActuatorCurrentVector)
    (s : DriveSystem) :
  length currents = kNumActuators ->
  (exists i, (i < kNumActuators)%nat
     /\ Rabs (at_ (Utils.Constrain currents (- max_current_ s) (max_current_ s)) i)
        > fault_current_ s) ->
  let s' := CommandCurrents currents s in
  control_mode_ s' = kError
  /\ sends_nothing s s'
  /\ last_commanded_current_ s' = last_commanded_current_ s.
Proof.
  intros Hlen [i [Hi Hgt]] s'. subst s'.
  rewrite CommandCurrents_fault.
  - cbn. unfold sends_nothing. cbn. auto.
  - apply fault_gate_true.
    + intros E. apply (f_equal (@length R)) in E.
      rewrite Constrain_length, Hlen in E. discriminate.
    + eexists. split; [|exact Hgt].
      apply nth_In_lt. exists i. split; [|reflexivity].
      now rewrite Constrain_length, Hlen.
Qed.

Lemma CommandCurrents_fault_gate_witness :
  let s := SetMaxCurrent 20 fresh in
  let currents := 15 :: repeat 0 11 in
  let s' := CommandCurrents currents s in
  control_mode_ s' = kError
  /\ sends_nothing s s'
  /\ last_commanded_current_ s' = last_commanded_current_ s.
Proof.
  apply (CommandCurrents_fault_gate (15 :: repeat 0 11) (SetMaxCurrent 20 fresh)).
  - reflexivity.
  - exists 0%nat. split; [unfold kNumActuators; lia|].
    cbn. unfold Utils.constrain. rdec.
    unfold Rabs. destruct (Rcase_abs 15); lra.
Defined.

(** ** The fault check *)

Lemma GetController_in_range (i : nat) (s : DriveSystem) :
  (i < kNumActuators)%nat -> snd (GetController i s) = s.
Proof.
  intros Hi. unfold GetController, kNumActuators, kNumActuatorsPerBus in *.
  destruct (i <=? 6 - 1) eqn:E1; [reflexivity|].
  destruct ((6 <=? i) && (i <=? 12 - 1)) eqn:E2; [reflexivity|].
  apply Nat.leb_gt in E1. apply andb_false_iff in E2.
  destruct E2 as [E2 | E2]; apply Nat.leb_gt in E2; simpl in *; lia.
Qed.

Lemma CheckErrors_loop_cases (s : DriveSystem) (idx : list nat) :
  CheckErrors_loop s idx = kError \/ CheckErrors_loop s idx = kIdle.
Proof.
  induction idx as [|i rest IH]; simpl; auto.
  destruct (Rgtb _ _); auto. destruct (Rgtb _ _); auto.
Qed.

Lemma CheckErrors_loop_error (s : DriveSystem) (idx : list nat) :
  CheckErrors_loop s idx = kError <->
  exists i, In i idx
    /\ (Rabs (GetActuatorPosition s i) > fault_position_ s
        \/ Rabs (GetActuatorVelocity s i) > fault_velocity_ s).
Proof.
  induction idx as [|i rest IH]; simpl.
  - split; [discriminate | intros [i [[] _]]].
  - destruct (Rgtb (Rabs (GetActuatorPosition s i)) (fault_position_ s)) eqn:Ep.
    + apply Rgtb_true in Ep. split; [|reflexivity]. intros _. exists i. auto.
    + destruct (Rgtb (Rabs (GetActuatorVelocity s i)) (fault_velocity_ s)) eqn:Ev.
      * apply Rgtb_true in Ev. split; [|reflexivity]. intros _. exists i. auto.
      * apply Rgtb_false in Ep. apply Rgtb_false in Ev.
        rewrite IH. split.
        -- intros [j [Hj H]]. exists j. auto.
        -- intros [j [[-> | Hj] H]]; [lra | exists j; auto].
Qed.

Lemma CheckErrors_error (s : DriveSystem) :
  CheckErrors s = kError <-> actuator_fault s.
Proof.
  unfold CheckErrors, actuator_fault. rewrite CheckErrors_loop_error.
  split; intros [i [Hi H]]; exists i; split; auto.
  - apply in_seq in Hi. lia.
  - apply in_seq. lia.
Qed.

Lemma CheckErrors_cases (s : DriveSystem) :
  CheckErrors s = kError \/ CheckErrors s = kIdle.
Proof. apply CheckErrors_loop_cases. Qed.

(** ** Commanding zero current *)

Lemma round_zero : Utils.round 0 = 0%Z.
Proof.
  unfold Utils.round. rdec. apply Zfloor_eq. simpl. lra.
Qed.

Lemma Constrain_zeros (n : nat) (m : R) :
  0 <= m -> Utils.Constrain (repeat 0 n) (- m) m = repeat 0 n.
Proof.
  intros Hm. unfold Utils.Constrain.
  induction n as [|n IH]; simpl; [reflexivity|].
  rewrite IH, constrain_inside by lra. reflexivity.
Qed.

Lemma MaskArray_zeros (n : nat) (mask : list bool) :
  Utils.MaskArray (repeat 0 n) mask = repeat 0 n.
Proof.
  revert mask. induction n as [|n IH]; intros mask; simpl; [reflexivity|].
  rewrite IH. now destruct (hd false mask).
Qed.

Lemma commanded_mA_zeros (n : nat) (s : DriveSystem) :
  commanded_mA s (repeat 0 n) = repeat 0%Z n.
Proof.
  unfold commanded_mA. generalize (direction_multipliers_ s) as b.
  induction n as [|n IH]; intros b; simpl; [reflexivity|].
  rewrite IH. rewrite !Rmult_0_l, round_zero. reflexivity.
Qed.

Lemma CommandIdle_zero (s : DriveSystem) :
  0 <= max_current_ s -> 0 <= fault_current_ s ->
  control_mode_ (CommandIdle s) = control_mode_ s
  /\ commands_all_zero s (CommandIdle s).
Proof.
  intros Hm Hf. unfold CommandIdle, fill, commands_all_zero.
  assert (G : fault_gate
            (Utils.Constrain (repeat 0 kNumActuators) (- max_current_ s)
               (max_current_ s)) (fault_current_ s) = false).
  { rewrite Constrain_zeros by assumption. apply fault_gate_within; [assumption|].
    intros y Hy. apply repeat_spec in Hy. subst y. lra. }
  destruct (CommandCurrents_pass _ _ G) as [Hmode [_ [Hfront Hrear]]].
  rewrite Constrain_zeros, MaskArray_zeros, commanded_mA_zeros in Hfront, Hrear
    by assumption.
  auto.
Qed.

Section Tick.

Variable ForwardKinematics : Vec3 -> nat -> Vec3.
Variable LegJacobian : Vec3 -> nat -> Mat3.
Variable HipPosition : nat -> Vec3.

Local Abbreviation tick := (Update ForwardKinematics LegJacobian HipPosition).

Lemma Update_on_fault (now : Z) (s : DriveSystem) :
  actuator_fault s -> tick now s = CommandIdle (set_control_mode_ kError s).
Proof.
  intros H. apply CheckErrors_error in H.
  unfold tick, Update. rewrite H. reflexivity.
Qed.

Lemma Update_no_fault (now : Z) (s : DriveSystem) :
  CheckErrors s = kIdle ->
  tick now s =
  match control_mode_ s with
  | kError => CommandIdle s
  | kIdle => CommandIdle s
  | kHoming => homing_case now s
  | kPositionControl => position_control_case now s
  | kCartesianPositionControl =>
      CommandCurrents
        (CartesianPositionControl ForwardKinematics LegJacobian HipPosition s) s
  | kCurrentControl => CommandCurrents (current_reference_ s) s
  end.
Proof.
  intros H. unfold tick, Update. rewrite H. reflexivity.
Qed.

Lemma Update_fault_mode (now : Z) (s : DriveSystem) :
  actuator_fault s -> control_mode_ (tick now s) = kError.
Proof.
  intros H. rewrite (Update_on_fault now s H).
  now apply CommandCurrents_keeps_error.
Qed.

Lemma Update_keeps_error (now : Z) (s : DriveSystem) :
  control_mode_ s = kError -> control_mode_ (tick now s) = kError.
Proof.
  intros H. destruct (CheckErrors_cases s) as [E | E].
  - apply Update_fault_mode. now apply CheckErrors_error.
  - rewrite (Update_no_fault now s E), H.
    now apply CommandCurrents_keeps_error.
Qed.

(** C2, as amended.  At the top of every [Update] tick, before mode dispatch
    and whatever the mode, a position or velocity fault of some actuator sets
    the mode to Error; when moreover [max_current_] and [fault_current_] are
    not negative, that tick commands all-zero current to both buses. *)
Theorem Update_fault_commands_zero (now : Z) (s : DriveSystem) :
  actuator_fault s ->
  control_mode_ (tick now s) = kError
  /\ (0 <= max_current_ s -> 0 <= fault_current_ s ->
      commands_all_zero s (tick now s)).
Proof.
  intros H. split; [now apply Update_fault_mode|].
  rewrite (Update_on_fault now s H). intros Hm Hf.
  destruct (CommandIdle_zero (set_control_mode_ kError s) Hm Hf) as [_ Hz].
  exact Hz.
Qed.

End Tick.

Lemma overtravel_fault (s : DriveSystem) :
  controllers (front_bus_ s) = readings_pos0 5 ->
  zero_position_ s = fill 0 ->
  at_ (direction_multipliers_ s) 0 = -1 ->
  fault_position_ s = PI ->
  actuator_fault s.
Proof.
  intros Hc Hz Hd Hf. exists 0%nat. split; [unfold kNumActuators; lia|].
  left. unfold GetActuatorPosition, GetRawActuatorPosition, GetController, Get.
  cbn. rewrite Hc, Hz, Hd, Hf. cbn.
  pose proof PI_4. unfold Rabs. destruct (Rcase_abs _); lra.
Qed.

Lemma Update_fault_commands_zero_witness :
  control_mode_ (toy_Update 0 overtravel) = kError
  /\ commands_all_zero overtravel (toy_Update 0 overtravel).
Proof.
  assert (H : actuator_fault overtravel) by (now apply overtravel_fault).
  destruct (Update_fault_commands_zero toy_ForwardKinematics toy_LegJacobian
              toy_HipPosition 0 overtravel H) as [A B].
  split; [exact A|]. apply B; cbn; lra.
Defined.

(** C2 as stated fails: after [SetFaultCurrent(-1)] the zero command itself
    trips the gate of [CommandCurrents], and nothing reaches the buses. *)
Lemma zero_command_dropped_counterexample :
  actuator_fault overtravel_negative_fault_current
  /\ ~ (control_mode_ (toy_Update 0 overtravel_negative_fault_current) = kError
        /\ commands_all_zero overtravel_negative_fault_current
             (toy_Update 0 overtravel_negative_fault_current)).
Proof.
  assert (H : actuator_fault overtravel_negative_fault_current)
    by (now apply overtravel_fault).
  split; [exact H|]. intros [_ [Hfront _]].
  unfold toy_Update in Hfront. rewrite (Update_on_fault _ _ _ 0 _ H) in Hfront.
  unfold CommandIdle in Hfront. rewrite CommandCurrents_fault in Hfront.
  - cbn in Hfront. discriminate.
  - apply fault_gate_true; [cbn; discriminate|].
    exists 0. split; [cbn; unfold Utils.constrain; rdec; auto|].
    cbn. rewrite Rabs_R0. lra.
Qed.

(** ** Arrays built by a loop *)

Lemma at_tabulate (f : nat -> R) (i : nat) :
  (i < kNumActuators)%nat -> at_ (tabulate f) i = f i.
Proof.
  intros Hi. unfold kNumActuators in Hi.
  do 12 (destruct i as [|i]; [reflexivity|]). lia.
Qed.

Lemma atb_tabulate (f : nat -> bool) (i : nat) :
  (i < kNumActuators)%nat -> atb (tabulate f) i = f i.
Proof.
  intros Hi. unfold kNumActuators in Hi.
  do 12 (destruct i as [|i]; [reflexivity|]). lia.
Qed.

Lemma tabulate_ext {A : Type} (f g : nat -> A) :
  (forall i, (i < kNumActuators)%nat -> f i = g i) ->
  tabulate f = tabulate g.
Proof.
  intros H. unfold tabulate. apply map_ext_in.
  intros i Hi. apply H. apply in_seq in Hi. lia.
Qed.

Lemma at_Constrain_tabulate (f : nat -> R) (lo hi : R) (i : nat) :
  (i < kNumActuators)%nat ->
  at_ (Utils.Constrain (tabulate f) lo hi) i = Utils.constrain (f i) lo hi.
Proof.
  intros Hi. unfold kNumActuators in Hi.
  do 12 (destruct i as [|i]; [reflexivity|]). lia.
Qed.

Lemma warning_fold (P : nat -> bool) (idx : list nat) (b : bool) :
  fold_left (fun warning i => if P i then true else warning) idx b = true
  <-> b = true \/ exists i, In i idx /\ P i = true.
Proof.
  revert b. induction idx as [|j rest IH]; intros b; simpl.
  - split; [auto | intros [H | [i [[] _]]]; exact H].
  - rewrite IH. split.
    + intros [H | [i [Hi H]]].
      * destruct (P j) eqn:E; [right; exists j; auto | now left].
      * right. exists i. auto.
    + intros [H | [i [[<- | Hi] H]]].
      * left. destruct (P j); auto.
      * left. now rewrite H.
      * right. exists i. auto.
Qed.

Lemma position_warning_true (start_position : ActuatorPositionVector) :
  position_warning start_position = true
  <-> exists i, (i < kNumActuators)%nat
        /\ Rabs (at_ start_position i) > 15 / 100.
Proof.
  unfold position_warning.
  rewrite (warning_fold
             (fun i => Rgtb (Rabs (at_ start_position i)) (15 / 100))).
  split.
  - intros [H | [i [Hi H]]]; [discriminate|].
    exists i. apply in_seq in Hi. apply Rgtb_true in H. split; [lia | exact H].
  - intros [i [Hi H]]. right. exists i. split.
    + apply in_seq. lia.
    + now apply Rgtb_true.
Qed.

Lemma position_warning_false (start_position : ActuatorPositionVector) :
  (forall i, (i < kNumActuators)%nat
     -> Rabs (at_ start_position i) <= 15 / 100) ->
  position_warning start_position = false.
Proof.
  intros H. destruct (position_warning start_position) eqn:E; [|reflexivity].
  apply position_warning_true in E. destruct E as [i [Hi Hgt]].
  specialize (H i Hi). lra.
Qed.

(** ** Joint position control *)

Ltac frame_facts F := cbv zeta in F; decompose [and] F.

Lemma position_control_case_eq (now : Z) (s : DriveSystem) :
  position_control_case now s =
  let s1 := if just_homed_ s then latch_statics now s else s in
  let s2 := CommandCurrents (position_control_currents now s) s1 in
  if just_homed_ s && Rgeb (handoff_progress now s) 1
  then set_just_homed_ false s2 else s2.
Proof.
  unfold position_control_case, position_control_currents, handoff_progress.
  destruct (just_homed_ s); reflexivity.
Qed.

Lemma position_control_case_frame (now : Z) (s : DriveSystem) :
  let s' := position_control_case now s in
  zero_position_ s' = zero_position_ s
  /\ homed_axes_ s' = homed_axes_ s
  /\ position_reference_ s' = position_reference_ s
  /\ start_position_ s' = start_position_ s
  /\ controllers (front_bus_ s') = controllers (front_bus_ s)
  /\ controllers (rear_bus_ s') = controllers (rear_bus_ s).
Proof.
  cbv zeta. rewrite position_control_case_eq. cbv zeta.
  generalize (position_control_currents now s) as c; intros c.
  destruct (just_homed_ s); simpl andb.
  - pose proof (CommandCurrents_frame c (latch_statics now s)) as F.
    frame_facts F.
    destruct (Rgeb _ _); repeat split; assumption.
  - pose proof (CommandCurrents_frame c s) as F.
    frame_facts F. repeat split; assumption.
Qed.

Lemma position_control_case_latch (now : Z) (s : DriveSystem) :
  transition_start_time (position_control_case now s)
  = if just_homed_ s
    then Some (static_value (transition_start_time s) now)
    else transition_start_time s.
Proof.
  rewrite position_control_case_eq. cbv zeta.
  generalize (position_control_currents now s) as c; intros c.
  destruct (just_homed_ s); simpl andb.
  - pose proof (CommandCurrents_frame c (latch_statics now s)) as F.
    frame_facts F.
    destruct (Rgeb _ _); assumption.
  - pose proof (CommandCurrents_frame c s) as F.
    frame_facts F. assumption.
Qed.

Lemma position_control_case_just_homed (now : Z) (s : DriveSystem) :
  just_homed_ (position_control_case now s)
  = just_homed_ s && negb (Rgeb (handoff_progress now s) 1).
Proof.
  rewrite position_control_case_eq. cbv zeta.
  generalize (position_control_currents now s) as c; intros c.
  destruct (just_homed_ s) eqn:E; simpl andb.
  - pose proof (CommandCurrents_frame c (latch_statics now s)) as F.
    frame_facts F.
    destruct (Rgeb _ _); [reflexivity|].
    transitivity (just_homed_ s); [assumption | exact E].
  - pose proof (CommandCurrents_frame c s) as F.
    frame_facts F. transitivity (just_homed_ s); [assumption | exact E].
Qed.

Lemma position_control_case_mode (now : Z) (s : DriveSystem) :
  control_mode_ (position_control_case now s) = kError
  \/ control_mode_ (position_control_case now s) = control_mode_ s.
Proof.
  rewrite position_control_case_eq. cbv zeta.
  generalize (position_control_currents now s) as c; intros c.
  destruct (just_homed_ s); simpl andb.
  - destruct (CommandCurrents_mode c (latch_statics now s)) as [E | E];
      destruct (Rgeb _ _); [left | left | right | right]; exact E.
  - apply CommandCurrents_mode.
Qed.

Lemma handoff_progress_latched (now t0 : Z) (s : DriveSystem) :
  transition_start_time s = Some t0 ->
  handoff_progress now s
  = clamp_progress (IZR (elapsed now t0) / transition_duration).
Proof. intros H. unfold handoff_progress. now rewrite H. Qed.

Lemma handoff_progress_first (now : Z) (s : DriveSystem) :
  transition_start_time s = None ->
  handoff_progress now s
  = clamp_progress (IZR (elapsed now now) / transition_duration).
Proof. intros H. unfold handoff_progress. now rewrite H. Qed.

Lemma position_control_case_statics (now : Z) (s : DriveSystem)
    (t0 : Z) (starts targets : ActuatorPositionVector) :
  transition_start_time s = Some t0 ->
  start_positions s = Some starts ->
  target_positions s = Some targets ->
  let s' := position_control_case now s in
  transition_start_time s' = Some t0
  /\ start_positions s' = Some starts
  /\ target_positions s' = Some targets.
Proof.
  intros Ht Hs Hg. cbv zeta. rewrite position_control_case_eq. cbv zeta.
  generalize (position_control_currents now s) as c; intros c.
  destruct (just_homed_ s); simpl andb.
  - pose proof (CommandCurrents_frame c (latch_statics now s)) as F.
    frame_facts F.
    assert (L : transition_start_time (latch_statics now s) = Some t0
                /\ start_positions (latch_statics now s) = Some starts
                /\ target_positions (latch_statics now s) = Some targets).
    { unfold latch_statics. rewrite Ht, Hs, Hg. repeat split; reflexivity. }
    destruct L as [L1 [L2 L3]].
    destruct (Rgeb _ _); repeat split;
      (etransitivity; [eassumption | assumption]).
  - pose proof (CommandCurrents_frame c s) as F. frame_facts F.
    repeat split; (etransitivity; [eassumption | assumption]).
Qed.

(** ** Homing *)

Lemma snapshot_start_position (s : DriveSystem) (i : nat) :
  (i < kNumActuators)%nat ->
  at_ (start_position_ (snapshot s)) i = GetRawActuatorPosition s i.
Proof. intros Hi. unfold snapshot. cbn. now apply at_tabulate. Qed.

Lemma homing_case_abort (now : Z) (s : DriveSystem) :
  (exists i, (i < kNumActuators)%nat
     /\ Rabs (GetRawActuatorPosition s i) > 15 / 100) ->
  homing_case now s = set_control_mode_ kError (snapshot s).
Proof.
  intros [i [Hi H]]. unfold homing_case. fold (snapshot s).
  assert (W : position_warning (start_position_ (snapshot s)) = true).
  { apply position_warning_true. exists i. split; [exact Hi|].
    now rewrite snapshot_start_position. }
  now rewrite W.
Qed.

Lemma homing_case_complete (now : Z) (s : DriveSystem) :
  (forall i, (i < kNumActuators)%nat
     -> Rabs (GetRawActuatorPosition s i) <= 15 / 100) ->
  homing_case now s = position_control_case now (homing_complete (snapshot s)).
Proof.
  intros H. unfold homing_case. fold (snapshot s).
  assert (W : position_warning (start_position_ (snapshot s)) = false).
  { apply position_warning_false. intros i Hi.
    rewrite snapshot_start_position by exact Hi. now apply H. }
  now rewrite W.
Qed.

Lemma homing_complete_zero (s : DriveSystem) :
  zero_position_ (homing_complete s)
  = tabulate (fun i =>
      at_ (start_position_ s) i
      - (at_ (zero_positions_cmd_ s) i * at_ (direction_multipliers_ s) i
         * at_ (homing_directions_ s) i)).
Proof. reflexivity. Qed.

Lemma homing_complete_homed (s : DriveSystem) :
  homed_axes_ (homing_complete s) = tabulate (fun _ => true).
Proof. reflexivity. Qed.

Lemma homing_complete_reference (s : DriveSystem) :
  position_reference_ (homing_complete s)
  = Utils.Constrain
      (tabulate (fun i =>
         at_ (initial_positions_ s) i * at_ (homing_directions_ s) i))
      (- PI) PI.
Proof. reflexivity. Qed.

Section Homing.

Variable ForwardKinematics : Vec3 -> nat -> Vec3.
Variable LegJacobian : Vec3 -> nat -> Mat3.
Variable HipPosition : nat -> Vec3.

Local Abbreviation tick := (Update ForwardKinematics LegJacobian HipPosition).

Lemma Update_completes_homing (now : Z) (s : DriveSystem) :
  control_mode_ s = kHoming ->
  CheckErrors s = kIdle ->
  (forall i, (i < kNumActuators)%nat
     -> Rabs (GetRawActuatorPosition s i) <= 15 / 100) ->
  tick now s = position_control_case now (homing_complete (snapshot s)).
Proof.
  intros Hmode Hok Hstart.
  rewrite (Update_no_fault _ _ _ now s Hok), Hmode.
  now apply homing_case_complete.
Qed.

Lemma Update_position_control (now : Z) (s : DriveSystem) :
  control_mode_ s = kPositionControl ->
  CheckErrors s = kIdle ->
  tick now s = position_control_case now s.
Proof.
  intros Hmode Hok. now rewrite (Update_no_fault _ _ _ now s Hok), Hmode.
Qed.

(** C6.  On a Homing-mode tick where some raw start position satisfies
    [|start_position[i]| > 0.15], the mode is set to Error and no
    [zero_position_[i]] and no [homed_axes_[i]] entry is changed by that
    tick. *)
Theorem homing_tick_aborts (now : Z) (s : DriveSystem) :
  control_mode_ s = kHoming ->
  (exists i, (i < kNumActuators)%nat
     /\ Rabs (GetRawActuatorPosition s i) > 15 / 100) ->
  control_mode_ (tick now s) = kError
  /\ zero_position_ (tick now s) = zero_position_ s
  /\ homed_axes_ (tick now s) = homed_axes_ s.
Proof.
  intros Hmode Hwarn. destruct (CheckErrors_cases s) as [E | E].
  - apply CheckErrors_error in E.
    rewrite (Update_on_fault _ _ _ now s E). unfold CommandIdle.
    pose proof (CommandCurrents_frame (fill 0) (set_control_mode_ kError s)) as F.
    frame_facts F. repeat split; try assumption.
    now apply CommandCurrents_keeps_error.
  - rewrite (Update_no_fault _ _ _ now s E), Hmode.
    rewrite (homing_case_abort now s Hwarn). repeat split; reflexivity.
Qed.

(** C5, as amended.  On a Homing-mode tick whose fault check at the top
    passes and where every raw start position satisfies
    [|start_position[i]| <= 0.15]: every zero offset becomes
    [start_position[i] - zero_cmd[i] * direction[i] * homing_direction[i]]
    and every [homed_axes_[i]] becomes true; [position_reference_] becomes
    [initial_position[i] * homing_direction[i]] clamped elementwise to
    [-PI, PI]; [just_homed_] is set and the mode is set to PositionControl;
    and the same call of [Update] falls through into the position-control
    case: with the positions read against the new zero offsets, it hands
    the PD currents
    [kp * (interpolated[i] - position[i])
     + kd * (velocity_reference[i] - velocity[i])],
    where [interpolated[i] = start[i] + (target[i] - start[i]) * smooth], to
    [CommandCurrents] in this tick.  When [0 <= max_current_ <=
    fault_current_], these currents, clamped and masked, are recorded and
    dispatched to both buses in this tick and the tick ends in
    PositionControl. *)
Theorem homing_tick_completes (now : Z) (s : DriveSystem) :
  control_mode_ s = kHoming ->
  CheckErrors s = kIdle ->
  (forall i, (i < kNumActuators)%nat
     -> Rabs (GetRawActuatorPosition s i) <= 15 / 100) ->
  let mid := homing_complete (snapshot s) in
  let s' := tick now s in
  let t0 := static_value (transition_start_time s) now in
  let starts := static_value (start_positions s) (GetActuatorPositions mid) in
  let targets := static_value (target_positions s) (position_reference_ mid) in
  let progress := clamp_progress (IZR (elapsed now t0) / transition_duration) in
  let smooth := / 2 - / 2 * cos (progress * PI) in
  let pd_current :=
    tabulate (fun i =>
      kp (position_gains_ s)
      * (at_ starts i + (at_ targets i - at_ starts i) * smooth
         - GetActuatorPosition mid i)
      + kd (position_gains_ s)
        * (at_ (velocity_reference_ s) i - GetActuatorVelocity mid i)) in
  let commanded := CommandCurrents pd_current (latch_statics now mid) in
  (forall i, (i < kNumActuators)%nat ->
     at_ (zero_position_ s') i
     = GetRawActuatorPosition s i
       - (at_ (zero_positions_cmd_ s) i * at_ (direction_multipliers_ s) i
          * at_ (homing_directions_ s) i)
     /\ atb (homed_axes_ s') i = true
     /\ at_ (position_reference_ s') i
        = Utils.constrain
            (at_ (initial_positions_ s) i * at_ (homing_directions_ s) i)
            (- PI) PI
     /\ - PI <= at_ (position_reference_ s') i <= PI
     /\ GetActuatorPosition mid i
        = (GetRawActuatorPosition s i - at_ (zero_position_ s') i)
          * at_ (direction_multipliers_ s) i
     /\ GetActuatorVelocity mid i = GetActuatorVelocity s i)
  /\ position_reference_ s'
     = Utils.Constrain
         (tabulate (fun i =>
            at_ (initial_positions_ s) i * at_ (homing_directions_ s) i))
         (- PI) PI
  /\ just_homed_ mid = true
  /\ control_mode_ mid = kPositionControl
  /\ s' = position_control_case now mid
  /\ s' = (if Rgeb progress 1 then set_just_homed_ false commanded
           else commanded)
  /\ (transition_start_time s = None -> just_homed_ s' = true)
  /\ (0 <= max_current_ s <= fault_current_ s ->
      let current_command :=
        Utils.MaskArray
          (Utils.Constrain pd_current (- max_current_ s) (max_current_ s))
          (active_mask_ s) in
      control_mode_ s' = kPositionControl
      /\ last_commanded_current_ s' = current_command
      /\ sent (front_bus_ s')
         = sent (front_bus_ s)
           ++ front_commands (commanded_mA s current_command)
      /\ sent (rear_bus_ s')
         = sent (rear_bus_ s)
           ++ rear_commands (commanded_mA s current_command)).
Proof.
  intros Hmode Hok Hstart mid s' t0 starts targets progress smooth pd_current
    commanded.
  assert (Es : s' = position_control_case now mid).
  { subst s' mid. now apply Update_completes_homing. }
  assert (Ec : position_control_currents now mid = pd_current).
  { unfold position_control_currents.
    change (just_homed_ mid) with true. cbv iota zeta.
    unfold pd_currents. subst pd_current. apply tabulate_ext. intros i Hi.
    rewrite at_tabulate by exact Hi. reflexivity. }
  assert (Ee : s' = (if Rgeb progress 1 then set_just_homed_ false commanded
                     else commanded)).
  { rewrite Es, position_control_case_eq. cbv zeta.
    change (just_homed_ mid) with true. cbv iota. simpl andb.
    rewrite Ec. reflexivity. }
  destruct (position_control_case_frame now mid) as [Fz [Fh [Fp _]]].
  assert (Ez : forall i, (i < kNumActuators)%nat ->
            at_ (zero_position_ s') i
            = GetRawActuatorPosition s i
              - (at_ (zero_positions_cmd_ s) i
                 * at_ (direction_multipliers_ s) i
                 * at_ (homing_directions_ s) i)).
  { intros i Hi. rewrite Es, Fz. subst mid.
    rewrite homing_complete_zero, at_tabulate by assumption.
    now rewrite snapshot_start_position. }
  assert (Er : forall i, (i < kNumActuators)%nat ->
            at_ (position_reference_ s') i
            = Utils.constrain
                (at_ (initial_positions_ s) i * at_ (homing_directions_ s) i)
                (- PI) PI).
  { intros i Hi. rewrite Es, Fp. subst mid.
    rewrite homing_complete_reference.
    now rewrite at_Constrain_tabulate. }
  split; [|split; [|split; [|split; [|split; [|split; [|split]]]]]].
  - intros i Hi. rewrite (Er i Hi).
    split; [exact (Ez i Hi)|].
    split; [rewrite Es, Fh; subst mid; rewrite homing_complete_homed;
            now apply atb_tabulate|].
    split; [reflexivity|].
    split; [apply constrain_range; pose proof PI_RGT_0; lra|].
    assert (Eg : fst (GetController i mid) = fst (GetController i s)).
    { unfold GetController. destruct (i <=? _); [reflexivity|].
      destruct (_ && _); reflexivity. }
    unfold GetActuatorPosition, GetActuatorVelocity, GetRawActuatorPosition.
    rewrite Es, Fz, Eg. split; reflexivity.
  - rewrite Es, Fp. reflexivity.
  - reflexivity.
  - reflexivity.
  - exact Es.
  - exact Ee.
  - intros Hnone. rewrite Es, position_control_case_just_homed.
    rewrite (handoff_progress_first now mid Hnone).
    unfold elapsed. rewrite Z.sub_diag, Zmod_0_l.
    unfold clamp_progress, transition_duration.
    change (just_homed_ mid) with true. cbn. rdec.
  - intros Hlim. cbv zeta.
    destruct (CommandCurrents_pass pd_current (latch_statics now mid)
                (fault_gate_clamped pd_current _ _ Hlim)) as [M [Lc [Fr Re]]].
    fold commanded in M, Lc, Fr, Re.
    rewrite Ee. destruct (Rgeb progress 1); repeat split; assumption.
Qed.

End Homing.

Lemma CheckErrors_idle (s : DriveSystem) :
  (forall i, (i < kNumActuators)%nat ->
     Rabs (GetActuatorPosition s i) <= fault_position_ s
     /\ Rabs (GetActuatorVelocity s i) <= fault_velocity_ s) ->
  CheckErrors s = kIdle.
Proof.
  intros H. destruct (CheckErrors_cases s) as [E | E]; [|exact E].
  apply CheckErrors_error in E. destruct E as [i [Hi E]].
  specialize (H i Hi). lra.
Qed.

(** Split a bounded quantification over the actuators into its 12 cases. *)
Ltac split_index i n :=
  match n with
  | O => idtac
  | S ?m => destruct i as [|i]; [|split_index i m]
  end.

Ltac each_actuator i Hi :=
  unfold kNumActuators in Hi;
  split_index i 12%nat; [..|exfalso; lia].

(** Read the telemetry of a concrete state. *)
Ltac readout :=
  unfold GetActuatorPosition, GetActuatorVelocity, GetRawActuatorPosition,
    GetController, Get;
  cbn.

Lemma Rabs_le_bound (x b : R) : - b <= x <= b -> Rabs x <= b.
Proof. intros H. unfold Rabs. destruct (Rcase_abs x); lra. Qed.

Lemma homing_requested_no_fault : CheckErrors homing_requested = kIdle.
Proof.
  apply CheckErrors_idle. intros i Hi. pose proof PI_RGT_0.
  each_actuator i Hi; readout; split; apply Rabs_le_bound; lra.
Qed.

Lemma homing_requested_near_stop (i : nat) :
  (i < kNumActuators)%nat ->
  Rabs (GetRawActuatorPosition homing_requested i) <= 15 / 100.
Proof.
  intros Hi. each_actuator i Hi; readout; apply Rabs_le_bound; lra.
Qed.

Lemma homing_tick_completes_witness :
  toy_Update 1000 homing_requested
  = position_control_case 1000 (homing_complete (snapshot homing_requested))
  /\ at_ (zero_position_ (toy_Update 1000 homing_requested)) 2
     = 0 - (knee_zero_position * 1 * -1)
  /\ atb (homed_axes_ (toy_Update 1000 homing_requested)) 2 = true
  /\ control_mode_ (toy_Update 1000 homing_requested) = kPositionControl.
Proof.
  pose proof (homing_tick_completes toy_ForwardKinematics toy_LegJacobian
                toy_HipPosition 1000 homing_requested eq_refl
                homing_requested_no_fault homing_requested_near_stop) as H.
  cbv zeta in H. destruct H as [Hz [_ [_ [_ [Hs [_ [_ Hc]]]]]]].
  split; [exact Hs|].
  assert (Hi : (2 < kNumActuators)%nat) by (unfold kNumActuators; lia).
  destruct (Hz 2%nat Hi) as [Hzero [Hhomed _]].
  split; [exact Hzero|]. split; [exact Hhomed|].
  assert (Hlim : 0 <= max_current_ homing_requested
                 <= fault_current_ homing_requested) by (cbn; lra).
  destruct (Hc Hlim) as [Hm _]. exact Hm.
Defined.

Lemma homing_tick_aborts_witness :
  control_mode_ (toy_Update 1000 homing_far_from_stop) = kError
  /\ zero_position_ (toy_Update 1000 homing_far_from_stop)
     = zero_position_ homing_far_from_stop
  /\ homed_axes_ (toy_Update 1000 homing_far_from_stop)
     = homed_axes_ homing_far_from_stop.
Proof.
  apply (homing_tick_aborts toy_ForwardKinematics toy_LegJacobian
           toy_HipPosition 1000 homing_far_from_stop eq_refl).
  exists 0%nat. split; [unfold kNumActuators; lia|].
  readout. unfold Rabs. destruct (Rcase_abs (1 / 2)); lra.
Defined.

(** ** Leaving the error state *)

Lemma faulted_mode : control_mode_ faulted = kError.
Proof.
  unfold faulted, toy_Update. apply Update_fault_mode.
  now apply overtravel_fault.
Qed.

Lemma run_ticks_keep_error
    (ForwardKinematics : Vec3 -> nat -> Vec3)
    (LegJacobian : Vec3 -> nat -> Mat3) (HipPosition : nat -> Vec3)
    (ticks : list Z) (s : DriveSystem) :
  control_mode_ s = kError ->
  control_mode_ (run_ticks ForwardKinematics LegJacobian HipPosition ticks s)
  = kError.
Proof.
  revert s. induction ticks as [|now rest IH]; intros s H; simpl.
  - exact H.
  - apply IH. now apply Update_keeps_error.
Qed.

(** C3, as amended.  Once the control mode is Error, any number of
    [Update] ticks keeps it Error and [SetIdle] moves it to Idle; every
    other setter overwrites the mode without looking at it:
    [SetJointPositions] gives PositionControl, [SetCartesianPositions] and
    [SetCartesianVelocities] give CartesianPositionControl, [SetCurrent]
    gives CurrentControl and [ExecuteHomingSequence] gives Homing. *)
Theorem error_mode_exits
    (ForwardKinematics : Vec3 -> nat -> Vec3)
    (LegJacobian : Vec3 -> nat -> Mat3) (HipPosition : nat -> Vec3)
    (ticks : list Z) (pos : ActuatorPositionVector)
    (vel : ActuatorVelocityVector)
    (i : nat) (current_reference : R) (s : DriveSystem) :
  control_mode_ s = kError ->
  control_mode_ (run_ticks ForwardKinematics LegJacobian HipPosition ticks s)
  = kError
  /\ control_mode_ (SetIdle s) = kIdle
  /\ control_mode_ (SetJointPositions pos s) = kPositionControl
  /\ control_mode_ (SetCartesianPositions pos s) = kCartesianPositionControl
  /\ control_mode_ (SetCartesianVelocities vel s) = kCartesianPositionControl
  /\ control_mode_ (SetCurrent i current_reference s) = kCurrentControl
  /\ control_mode_ (ExecuteHomingSequence s) = kHoming.
Proof.
  intros H. split; [now apply run_ticks_keep_error|].
  repeat split; reflexivity.
Qed.

Lemma error_mode_exits_witness :
  control_mode_
    (run_ticks toy_ForwardKinematics toy_LegJacobian toy_HipPosition
       [1; 2; 3]%Z faulted) = kError
  /\ control_mode_ (SetIdle faulted) = kIdle
  /\ control_mode_ (SetJointPositions (fill 0) faulted) = kPositionControl
  /\ control_mode_ (SetCartesianPositions (fill 0) faulted)
     = kCartesianPositionControl
  /\ control_mode_ (SetCartesianVelocities (fill 0) faulted)
     = kCartesianPositionControl
  /\ control_mode_ (SetCurrent 0 1 faulted) = kCurrentControl
  /\ control_mode_ (ExecuteHomingSequence faulted) = kHoming.
Proof.
  exact (error_mode_exits toy_ForwardKinematics toy_LegJacobian
           toy_HipPosition [1; 2; 3]%Z (fill 0) (fill 0) 0 1 faulted
           faulted_mode).
Defined.

(** C3 as stated fails: [SetJointPositions] takes the system out of the
    error state. *)
Lemma SetJointPositions_leaves_error_counterexample :
  control_mode_ faulted = kError
  /\ control_mode_ (SetJointPositions (fill 0) faulted) <> kError.
Proof. split; [exact faulted_mode | discriminate]. Qed.

(** ** The reference setters *)

Lemma array_set_length {A : Type} (a : list A) (i : nat) (v : A) :
  length (array_set a i v) = length a.
Proof.
  revert i. induction a as [|h t IH]; intros [|i]; simpl; auto.
Qed.

Lemma array_set_same (a : list R) (i : nat) (v : R) :
  (i < length a)%nat -> at_ (array_set a i v) i = v.
Proof.
  revert i. induction a as [|h t IH]; intros [|i] Hi; simpl in *;
    try lia; [reflexivity|].
  apply IH. lia.
Qed.

Lemma array_set_other (a : list R) (i j : nat) (v : R) :
  j <> i -> at_ (array_set a i v) j = at_ a j.
Proof.
  revert i j. induction a as [|h t IH]; intros [|i] [|j] Hne; simpl;
    try reflexivity; try congruence.
  apply IH. congruence.
Qed.

(** C9, as amended.  [SetJointPositions], [SetCartesianPositions] and
    [SetCartesianVelocities] replace their whole reference vector by the
    argument.  [SetCurrent(i, v)] sets the mode to CurrentControl and writes
    element [i] of [current_reference_] only: every other element keeps the
    value of the previous commands. *)
Theorem setters_overwrite (pos : ActuatorPositionVector)
    (vel : ActuatorVelocityVector) (i : nat) (v : R) (s : DriveSystem) :
  position_reference_ (SetJointPositions pos s) = pos
  /\ cartesian_position_reference_ (SetCartesianPositions pos s) = pos
  /\ cartesian_velocity_reference_ (SetCartesianVelocities vel s) = vel
  /\ control_mode_ (SetCurrent i v s) = kCurrentControl
  /\ length (current_reference_ (SetCurrent i v s))
     = length (current_reference_ s)
  /\ ((i < length (current_reference_ s))%nat ->
      at_ (current_reference_ (SetCurrent i v s)) i = v)
  /\ (forall j, j <> i ->
      at_ (current_reference_ (SetCurrent i v s)) j
      = at_ (current_reference_ s) j).
Proof.
  repeat split; try reflexivity.
  - apply array_set_length.
  - intros Hi. now apply array_set_same.
  - intros j Hj. now apply array_set_other.
Qed.

Lemma setters_overwrite_witness :
  at_ (current_reference_ (SetCurrent 1 5 (SetCurrent 0 7 fresh))) 1 = 5
  /\ at_ (current_reference_ (SetCurrent 1 5 (SetCurrent 0 7 fresh))) 0
     = at_ (current_reference_ (SetCurrent 0 7 fresh)) 0.
Proof.
  pose proof (setters_overwrite (fill 0) (fill 0) 1 5 (SetCurrent 0 7 fresh))
    as H.
  destruct H as [_ [_ [_ [_ [_ [Hsame Hother]]]]]].
  split.
  - apply Hsame. cbn. lia.
  - apply Hother. discriminate.
Defined.

(** C9 as stated fails: after [SetCurrent(0, 7)], the call [SetCurrent(1, 5)]
    leaves the 7 of the earlier command in element 0; the vector is not the
    one the same call builds from the freshly constructed state. *)
Lemma SetCurrent_stale_element_counterexample :
  at_ (current_reference_ (SetCurrent 1 5 (SetCurrent 0 7 fresh))) 0 = 7
  /\ current_reference_ (SetCurrent 1 5 (SetCurrent 0 7 fresh))
     <> current_reference_ (SetCurrent 1 5 fresh).
Proof.
  split; [reflexivity|]. cbn. intros H. injection H as H. lra.
Qed.

(** ** The clamp against the fault gate *)

(** C10, as amended.  Whenever [0 <= max_current_ <= fault_current_] holds
    at the time of the call, the error branch of [CommandCurrents] is not
    taken, whatever the requested currents: the mode is left as it is, and
    the clamped and masked command is recorded in
    [last_commanded_current_] and dispatched to both buses. *)
Theorem CommandCurrents_within_limits (currents : ActuatorCurrentVector)
    (s : DriveSystem) :
  0 <= max_current_ s <= fault_current_ s ->
  let current_command :=
    Utils.MaskArray
      (Utils.Constrain currents (- max_current_ s) (max_current_ s))
      (active_mask_ s) in
  let s' := CommandCurrents currents s in
  control_mode_ s' = control_mode_ s
  /\ last_commanded_current_ s' = current_command
  /\ sent (front_bus_ s')
     = sent (front_bus_ s) ++ front_commands (commanded_mA s current_command)
  /\ sent (rear_bus_ s')
     = sent (rear_bus_ s) ++ rear_commands (commanded_mA s current_command).
Proof.
  intros H. apply CommandCurrents_pass.
  apply fault_gate_within; [lra|]. intros y Hy.
  apply Constrain_range in Hy; lra.
Qed.

Lemma CommandCurrents_within_limits_witness :
  control_mode_ (CommandCurrents (fill 3) homing_requested) = kHoming
  /\ last_commanded_current_ (CommandCurrents (fill 3) homing_requested)
     = Utils.MaskArray (Utils.Constrain (fill 3) (- 2) 2) (fill true).
Proof.
  assert (H : 0 <= max_current_ homing_requested
              <= fault_current_ homing_requested) by (cbn; lra).
  destruct (CommandCurrents_within_limits (fill 3) homing_requested H)
    as [Hm [Hl _]].
  split; [exact Hm | exact Hl].
Defined.

(** C10 as stated fails: after [SetMaxCurrent(-20)] the precondition
    [max_current_ <= fault_current_] holds (-20 <= 10), the clamp of a zero
    request yields 20, and the gate puts the idle system in the error
    state. *)
Lemma negative_max_current_trips_gate_counterexample :
  max_current_ negative_max_current <= fault_current_ negative_max_current
  /\ control_mode_ negative_max_current = kIdle
  /\ control_mode_ (CommandCurrents (fill 0) negative_max_current) = kError.
Proof.
  split; [cbn; lra|]. split; [reflexivity|].
  rewrite CommandCurrents_fault; [reflexivity|].
  apply fault_gate_true; [cbn; discriminate|].
  exists (- -20). split.
  - cbn. left. unfold Utils.constrain. rdec.
  - cbn. unfold Rabs. destruct (Rcase_abs (- -20)); lra.
Qed.

(** ** The smoothing of the handoff *)

Lemma clamp_progress_range (progress : R) :
  0 <= clamp_progress progress <= 1.
Proof. unfold clamp_progress. rdec. Qed.

Lemma smooth_progress_0 : smooth_progress 0 = 0.
Proof. unfold smooth_progress. rewrite Rmult_0_l, cos_0. lra. Qed.

Lemma smooth_progress_1 : smooth_progress 1 = 1.
Proof. unfold smooth_progress. rewrite Rmult_1_l, cos_PI. lra. Qed.

Lemma smooth_progress_monotone (a b : R) :
  0 <= a -> a <= b -> b <= 1 -> smooth_progress a <= smooth_progress b.
Proof.
  intros Ha Hab Hb. unfold smooth_progress.
  pose proof PI_RGT_0 as Hpi.
  assert (cos (b * PI) <= cos (a * PI)); [|lra].
  apply cos_decr_1; nra.
Qed.

(** C8, as amended.  For [smooth(progress) = 0.5 - 0.5*cos(progress*PI)]
    with the progress clamped to [0, 1] and
    [interpolated = start + (target - start) * smooth]: [smooth(0) = 0],
    [smooth(1) = 1], [smooth] is monotonic non-decreasing on [0, 1], the
    interpolated position is [start] at progress 0, and at progress 1 it is
    the sum [start + (target - start) * 1], for every start and target.
    (In [float] that sum is rounded and need not be [target].) *)
Theorem smoothing_boundaries :
  (forall progress, 0 <= clamp_progress progress <= 1)
  /\ smooth_progress 0 = 0
  /\ smooth_progress 1 = 1
  /\ (forall a b, 0 <= a -> a <= b -> b <= 1 ->
        smooth_progress a <= smooth_progress b)
  /\ (forall start target,
        interpolate start target (smooth_progress (clamp_progress 0)) = start
        /\ interpolate start target (smooth_progress (clamp_progress 1))
           = start + (target - start) * 1).
Proof.
  split; [exact clamp_progress_range|].
  split; [exact smooth_progress_0|].
  split; [exact smooth_progress_1|].
  split; [exact smooth_progress_monotone|].
  intros start target.
  assert (E0 : clamp_progress 0 = 0) by (unfold clamp_progress; rdec).
  assert (E1 : clamp_progress 1 = 1) by (unfold clamp_progress; rdec).
  rewrite E0, E1, smooth_progress_0, smooth_progress_1.
  unfold interpolate. split; [lra | reflexivity].
Qed.

Lemma smoothing_boundaries_witness :
  smooth_progress 0 <= smooth_progress (1 / 2)
  /\ smooth_progress (1 / 2) <= smooth_progress 1.
Proof.
  destruct smoothing_boundaries as [_ [_ [_ [Hmono _]]]].
  split; apply Hmono; lra.
Defined.

(** C8 as stated fails in the arithmetic of the code: for the left
    abduction actuator homed from the raw position [0.149f], the handoff
    starts at [0x3cccccd0] (about 0.025000006) and its target is
    [0x3f4f7641] (about 0.81039816).  At progress 0 the interpolated
    position is the start; at progress 1, with [smooth = 1.0f], it is
    [0x3f4f7640] (about 0.81039810), one unit in the last place short of
    the target. *)
Lemma handoff_misses_target_counterexample :
  is_float32 handoff_start32 = true
  /\ is_float32 handoff_target32 = true
  /\ handoff_start32 = S754_finite false 13421776 (-29)
  /\ handoff_target32 = S754_finite false 13596225 (-24)
  /\ interpolate32 handoff_start32 handoff_target32 zero32 = handoff_start32
  /\ interpolate32 handoff_start32 handoff_target32 one32
     = S754_finite false 13596224 (-24)
  /\ interpolate32 handoff_start32 handoff_target32 one32
     <> handoff_target32.
Proof.
  repeat split; try (vm_compute; reflexivity).
  vm_compute. discriminate.
Qed.

(** ** Cartesian position control *)

Lemma scaled_bound (a m n : R) :
  0 <= m -> 0 < n -> Rabs a <= n -> Rabs (a * m / n) <= m.
Proof.
  intros Hm Hn Ha. unfold Rdiv.
  rewrite !Rabs_mult, (Rabs_right m), (Rabs_right (/ n)).
  - pose proof (Rabs_pos a) as Hp.
    assert (Hi : 0 < / n) by now apply Rinv_0_lt_compat.
    assert (H1 : Rabs a * m <= n * m) by now apply Rmult_le_compat_r.
    assert (H2 : Rabs a * m * / n <= n * m * / n).
    { apply Rmult_le_compat_r; lra. }
    replace (n * m * / n) with m in H2 by (field; lra). exact H2.
  - apply Rle_ge. left. now apply Rinv_0_lt_compat.
  - now apply Rle_ge.
Qed.

Lemma InfinityNorm3_bounds (v : Vec3) :
  Rabs (v0 v) <= Utils.InfinityNorm3 v
  /\ Rabs (v1 v) <= Utils.InfinityNorm3 v
  /\ Rabs (v2 v) <= Utils.InfinityNorm3 v.
Proof.
  destruct v as [[a b] c]. unfold Utils.InfinityNorm3, v0, v1, v2. simpl.
  pose proof (Rmax_l (Rabs a) (Rmax (Rabs b) (Rabs c))).
  pose proof (Rmax_r (Rabs a) (Rmax (Rabs b) (Rabs c))).
  pose proof (Rmax_l (Rabs b) (Rabs c)).
  pose proof (Rmax_r (Rabs b) (Rabs c)).
  repeat split; lra.
Qed.

(** The inline saturation keeps the infinity-norm within a non-negative
    [max_current]. *)
Lemma saturate_bound (v : Vec3) (max_current : R) :
  0 <= max_current ->
  Utils.InfinityNorm3 (saturate v max_current) <= max_current.
Proof.
  intros Hm. unfold saturate.
  destruct (Rgtb (Utils.InfinityNorm3 v) max_current) eqn:E.
  - apply Rgtb_true in E.
    destruct (InfinityNorm3_bounds v) as [Ha [Hb Hc]].
    destruct v as [[a b] c]. unfold v0, v1, v2 in *.
    cbn [fst snd] in Ha, Hb, Hc.
    set (n := Utils.InfinityNorm3 (a, b, c)) in *.
    unfold vscale, vdiv, Utils.InfinityNorm3.
    repeat apply Rmax_lub; apply scaled_bound; lra.
  - now apply Rgtb_false in E.
Qed.

Section Cartesian.

Variable ForwardKinematics : Vec3 -> nat -> Vec3.
Variable LegJacobian : Vec3 -> nat -> Mat3.
Variable HipPosition : nat -> Vec3.

Local Abbreviation joint_torques :=
  (leg_joint_torques ForwardKinematics LegJacobian HipPosition).
Local Abbreviation torques :=
  (CartesianPositionControl ForwardKinematics LegJacobian HipPosition).

(** C4, as amended.  In [CartesianPositionControl], for each of the 4 legs
    the 3 joint torques are saturated with the direction-preserving clamp at
    [max_current_] first, and the knee soft-limit torque
    ([position_gains_.kp * (knee_soft_limit - knee_angle)] when the knee
    angle is past the soft limit, 0 otherwise) is added to the knee entry
    after that.  The saturation leaves a vector whose infinity-norm is at
    most [max_current_] as it is, so that each of its three entries is
    within [max_current_]; a vector of larger norm becomes
    [joint_torques * max_current_ / norm].  The abduction and hip entries
    of the returned 12-vector are the saturated ones, and the knee entry is
    the saturated knee torque plus the knee soft-limit torque. *)
Theorem cartesian_leg_torques (s : DriveSystem) (leg : nat) :
  (leg < 4)%nat ->
  let norm := Utils.InfinityNorm3 (joint_torques s leg) in
  let saturated := saturate (joint_torques s leg) (max_current_ s) in
  let knee_angle := GetActuatorPosition s (3 * leg + 2) in
  let knee_torque := knee_constraint_torque s leg in
  knee_torque
  = (if Rgtb knee_angle (knee_soft_limit s)
     then kp (position_gains_ s) * (knee_soft_limit s - knee_angle)
     else 0)
  /\ at_ (torques s) (3 * leg) = v0 saturated
  /\ at_ (torques s) (3 * leg + 1) = v1 saturated
  /\ at_ (torques s) (3 * leg + 2) = v2 saturated + knee_torque
  /\ (norm > max_current_ s ->
      saturated = vdiv (vscale (joint_torques s leg) (max_current_ s)) norm)
  /\ (norm <= max_current_ s ->
      saturated = joint_torques s leg
      /\ Rabs (at_ (torques s) (3 * leg)) <= max_current_ s
      /\ Rabs (at_ (torques s) (3 * leg + 1)) <= max_current_ s
      /\ Rabs (v2 saturated) <= max_current_ s).
Proof.
  intros Hleg norm saturated knee_angle knee_torque.
  assert (E : at_ (torques s) (3 * leg) = v0 saturated
              /\ at_ (torques s) (3 * leg + 1) = v1 saturated
              /\ at_ (torques s) (3 * leg + 2) = v2 saturated + knee_torque).
  { destruct leg as [|[|[|[|leg]]]]; [..|lia]; repeat split; reflexivity. }
  destruct E as [E0 [E1 E2]].
  split; [reflexivity|].
  split; [exact E0|]. split; [exact E1|]. split; [exact E2|].
  split.
  - intros Hn. apply Rgtb_true in Hn. subst saturated norm.
    unfold saturate. now rewrite Hn.
  - intros Hn.
    assert (Es : saturated = joint_torques s leg).
    { apply Rgtb_false in Hn. subst saturated norm.
      unfold saturate. now rewrite Hn. }
    destruct (InfinityNorm3_bounds (joint_torques s leg)) as [B0 [B1 B2]].
    fold norm in B0, B1, B2.
    split; [exact Es|]. rewrite E0, E1, Es. repeat split; lra.
Qed.

End Cartesian.

Lemma cartesian_leg_torques_witness :
  let s := SetMaxCurrent 3 fresh in
  Rabs (at_ (toy_CartesianPositionControl s) 0) <= 3
  /\ Rabs (at_ (toy_CartesianPositionControl s) 1) <= 3.
Proof.
  intros s.
  assert (Hleg : (0 < 4)%nat) by lia.
  pose proof (cartesian_leg_torques toy_ForwardKinematics toy_LegJacobian
                toy_HipPosition s 0 Hleg) as H.
  cbv zeta in H. destruct H as [_ [_ [_ [_ [_ H]]]]].
  assert (Hn : Utils.InfinityNorm3
                 (leg_joint_torques toy_ForwardKinematics toy_LegJacobian
                    toy_HipPosition s 0) <= max_current_ s).
  { assert (Ej : leg_joint_torques toy_ForwardKinematics toy_LegJacobian
                   toy_HipPosition s 0 = (0, 0, 0)).
    { unfold leg_joint_torques, LegJointAngles, LegJointVelocities.
      readout. f_equal; [f_equal|]; ring. }
    rewrite Ej. unfold Utils.InfinityNorm3, v0, v1, v2. cbn.
    rewrite Rabs_R0. unfold Rmax. repeat destruct (Rle_dec _ _); lra. }
  destruct (H Hn) as [_ [A [B _]]]. split; [exact A | exact B].
Defined.

(** C4 as stated fails: right after construction [max_current_] is 0 and
    the knee of leg 0 is at angle 0, past the soft limit [-PI/6]; the knee
    entry of the result is the soft-limit torque [-PI/6], added after the
    saturation, and the leg's three entries have infinity-norm [PI/6 > 0]. *)
Lemma knee_torque_past_max_current_counterexample :
  let t := toy_CartesianPositionControl fresh in
  ~ (Utils.InfinityNorm3 (at_ t 0, at_ t 1, at_ t 2) <= max_current_ fresh).
Proof.
  intros t Hn.
  set (sat := saturate
                (leg_joint_torques toy_ForwardKinematics toy_LegJacobian
                   toy_HipPosition fresh 0) (max_current_ fresh)).
  assert (E : at_ t 2 = v2 sat + knee_constraint_torque fresh 0)
    by reflexivity.
  assert (B : Utils.InfinityNorm3 sat <= max_current_ fresh)
    by (apply saturate_bound; cbn; lra).
  destruct (InfinityNorm3_bounds sat) as [_ [_ B2]].
  destruct (InfinityNorm3_bounds (at_ t 0, at_ t 1, at_ t 2)) as [_ [_ T2]].
  change (v2 (at_ t 0, at_ t 1, at_ t 2)) with (at_ t 2) in T2.
  assert (K : knee_constraint_torque fresh 0 = 1 * (- PI / 6 - (0 - 0) * 1)).
  { unfold knee_constraint_torque, LegJointAngles, v2. readout.
    pose proof PI_RGT_0. rdec. }
  assert (M : max_current_ fresh = 0) by reflexivity.
  rewrite E, K in T2, Hn. rewrite M in *.
  pose proof PI_RGT_0.
  unfold Rabs in B2, T2.
  destruct (Rcase_abs (v2 sat)); destruct (Rcase_abs _); lra.
Qed.

(** ** What a tick leaves alone *)

Lemma same_setup_refl (s : DriveSystem) : same_setup s s.
Proof. unfold same_setup. repeat split; reflexivity. Qed.

Lemma same_setup_trans (s1 s2 s3 : DriveSystem) :
  same_setup s1 s2 -> same_setup s2 s3 -> same_setup s1 s3.
Proof.
  unfold same_setup. intros H12 H23.
  decompose [and] H12. decompose [and] H23. repeat split; congruence.
Qed.

Lemma CommandCurrents_setup (currents : list R) (s : DriveSystem) :
  same_setup s (CommandCurrents currents s).
Proof.
  unfold same_setup, CommandCurrents.
  destruct (_ || _); repeat split; reflexivity.
Qed.

Lemma position_control_case_setup (now : Z) (s : DriveSystem) :
  same_setup s (position_control_case now s).
Proof.
  rewrite position_control_case_eq. cbv zeta.
  generalize (position_control_currents now s) as c; intros c.
  destruct (just_homed_ s); simpl andb.
  - pose proof (CommandCurrents_setup c (latch_statics now s)) as F.
    destruct (Rgeb _ _); exact F.
  - apply CommandCurrents_setup.
Qed.

Lemma position_control_case_mode_within (now : Z) (s : DriveSystem) :
  0 <= max_current_ s <= fault_current_ s ->
  control_mode_ (position_control_case now s) = control_mode_ s.
Proof.
  intros H. rewrite position_control_case_eq. cbv zeta.
  generalize (position_control_currents now s) as c; intros c.
  destruct (just_homed_ s); simpl andb.
  - destruct (CommandCurrents_pass c (latch_statics now s)
                (fault_gate_clamped c _ _ H)) as [M _].
    destruct (Rgeb _ _); exact M.
  - destruct (CommandCurrents_pass c s (fault_gate_clamped c _ _ H))
      as [M _].
    exact M.
Qed.

(** The readings of the actuators depend on the telemetry, the zero
    offsets and the wiring signs only. *)
Lemma GetController_ext (s s' : DriveSystem) (i : nat) :
  same_setup s s' -> fst (GetController i s') = fst (GetController i s).
Proof.
  unfold same_setup. intros H. decompose [and] H.
  unfold GetController, Get.
  destruct (i <=? kNumActuatorsPerBus - 1); [cbn; congruence|].
  destruct (_ && _); cbn; congruence.
Qed.

Lemma raw_position_ext (s s' : DriveSystem) (i : nat) :
  same_setup s s' ->
  GetRawActuatorPosition s' i = GetRawActuatorPosition s i.
Proof.
  intros H. unfold GetRawActuatorPosition. now rewrite (GetController_ext s s').
Qed.

Lemma readings_ext (s s' : DriveSystem) (i : nat) :
  same_setup s s' -> zero_position_ s' = zero_position_ s ->
  GetActuatorPosition s' i = GetActuatorPosition s i
  /\ GetActuatorVelocity s' i = GetActuatorVelocity s i.
Proof.
  intros H Hz. pose proof (GetController_ext s s' i H) as E.
  unfold same_setup in H. decompose [and] H.
  unfold GetActuatorPosition, GetActuatorVelocity, GetRawActuatorPosition.
  split; congruence.
Qed.

Lemma CheckErrors_ext (s s' : DriveSystem) :
  same_setup s s' -> zero_position_ s' = zero_position_ s ->
  CheckErrors s' = CheckErrors s.
Proof.
  intros H Hz. unfold CheckErrors.
  assert (Ep : fault_position_ s' = fault_position_ s)
    by (unfold same_setup in H; tauto).
  assert (Ev : fault_velocity_ s' = fault_velocity_ s)
    by (unfold same_setup in H; tauto).
  induction (seq 0 kNumActuators) as [|i rest IH]; simpl; [reflexivity|].
  destruct (readings_ext s s' i H Hz) as [Rp Rv].
  now rewrite Rp, Rv, Ep, Ev, IH.
Qed.

(** ** A second homing sequence in the same process *)

(** Once the three local [static]s of the handoff hold a value, no tick
    changes it. *)
Lemma Update_statics_initialised_once
    (ForwardKinematics : Vec3 -> nat -> Vec3)
    (LegJacobian : Vec3 -> nat -> Mat3) (HipPosition : nat -> Vec3)
    (now : Z) (s : DriveSystem)
    (t0 : Z) (starts targets : ActuatorPositionVector) :
  transition_start_time s = Some t0 ->
  start_positions s = Some starts ->
  target_positions s = Some targets ->
  let s' := Update ForwardKinematics LegJacobian HipPosition now s in
  transition_start_time s' = Some t0
  /\ start_positions s' = Some starts
  /\ target_positions s' = Some targets.
Proof.
  intros Ht Hs Hg. cbv zeta. unfold Update.
  set (s1 := match CheckErrors s with
             | kError => set_control_mode_ kError s
             | _ => s
             end).
  assert (E : transition_start_time s1 = Some t0
              /\ start_positions s1 = Some starts
              /\ target_positions s1 = Some targets).
  { subst s1. destruct (CheckErrors s); repeat split; assumption. }
  clearbody s1. destruct E as [E1 [E2 E3]].
  assert (C : forall c,
            transition_start_time (CommandCurrents c s1) = Some t0
            /\ start_positions (CommandCurrents c s1) = Some starts
            /\ target_positions (CommandCurrents c s1) = Some targets).
  { intros c. pose proof (CommandCurrents_frame c s1) as F. frame_facts F.
    repeat split; congruence. }
  destruct (control_mode_ s1); try apply C.
  - unfold homing_case. destruct (position_warning _).
    + repeat split; assumption.
    + now apply position_control_case_statics.
  - now apply position_control_case_statics.
Qed.

Lemma homed_once_no_fault :
  CheckErrors (homing_complete (snapshot homing_requested)) = kIdle.
Proof.
  apply CheckErrors_idle. intros i Hi. pose proof PI2_1.
  each_actuator i Hi; readout;
    unfold knee_zero_position, hip_zero_position, abduction_zero_position,
      backlash;
    split; apply Rabs_le_bound; lra.
Qed.

Lemma first_handoff_eq :
  first_handoff
  = position_control_case 1000 (homing_complete (snapshot homing_requested)).
Proof.
  unfold first_handoff, toy_Update.
  apply Update_completes_homing;
    [reflexivity | exact homing_requested_no_fault
     | exact homing_requested_near_stop].
Qed.

Lemma first_handoff_setup :
  same_setup (homing_complete (snapshot homing_requested)) first_handoff
  /\ zero_position_ first_handoff
     = zero_position_ (homing_complete (snapshot homing_requested))
  /\ control_mode_ first_handoff = kPositionControl
  /\ just_homed_ first_handoff = true
  /\ transition_start_time first_handoff = Some 1000%Z.
Proof.
  rewrite first_handoff_eq.
  set (m := homing_complete (snapshot homing_requested)).
  split; [apply position_control_case_setup|].
  split; [apply position_control_case_frame|].
  split.
  { rewrite position_control_case_mode_within; [reflexivity|]. cbn. lra. }
  split; [|now rewrite position_control_case_latch].
  rewrite position_control_case_just_homed.
  rewrite (handoff_progress_first 1000); [|reflexivity].
  change (elapsed 1000 1000) with 0%Z.
  unfold clamp_progress, transition_duration. cbn. rdec.
Qed.

Lemma handoff_done_eq :
  handoff_done = position_control_case 6000 first_handoff.
Proof.
  destruct first_handoff_setup as [S [Z [M _]]].
  unfold handoff_done, toy_Update.
  apply Update_position_control; [exact M|].
  rewrite (CheckErrors_ext _ _ S Z). exact homed_once_no_fault.
Qed.

Lemma handoff_done_setup :
  same_setup (homing_complete (snapshot homing_requested)) handoff_done
  /\ zero_position_ handoff_done
     = zero_position_ (homing_complete (snapshot homing_requested))
  /\ just_homed_ handoff_done = false
  /\ transition_start_time handoff_done = Some 1000%Z.
Proof.
  destruct first_handoff_setup as [S [Z [M [J T]]]].
  rewrite handoff_done_eq.
  split.
  { eapply same_setup_trans; [exact S|]. apply position_control_case_setup. }
  split.
  { rewrite <- Z. apply position_control_case_frame. }
  split.
  - rewrite position_control_case_just_homed, J.
    rewrite (handoff_progress_latched 6000 1000 _ T).
    change (elapsed 6000 1000) with 5000%Z.
    unfold clamp_progress, transition_duration. cbn. rdec.
  - now rewrite position_control_case_latch, J, T.
Qed.

Lemma second_homing_requested_setup :
  same_setup (homing_complete (snapshot homing_requested))
    second_homing_requested
  /\ zero_position_ second_homing_requested
     = zero_position_ (homing_complete (snapshot homing_requested)).
Proof.
  destruct handoff_done_setup as [S [Z _]].
  unfold same_setup in S. decompose [and] S.
  unfold second_homing_requested, same_setup.
  repeat split; assumption.
Qed.

Lemma second_homing_requested_near_stop (i : nat) :
  (i < kNumActuators)%nat ->
  Rabs (GetRawActuatorPosition second_homing_requested i) <= 15 / 100.
Proof.
  intros Hi. destruct second_homing_requested_setup as [S _].
  rewrite (raw_position_ext _ _ i S).
  assert (S0 : same_setup homing_requested
                 (homing_complete (snapshot homing_requested)))
    by (unfold same_setup; repeat split; reflexivity).
  rewrite (raw_position_ext _ _ i S0).
  now apply homing_requested_near_stop.
Qed.

Lemma second_handoff_eq :
  second_handoff
  = position_control_case 20000
      (homing_complete (snapshot second_homing_requested)).
Proof.
  destruct second_homing_requested_setup as [S Z].
  unfold second_handoff, toy_Update.
  apply Update_completes_homing;
    [reflexivity | | exact second_homing_requested_near_stop].
  rewrite (CheckErrors_ext _ _ S Z). exact homed_once_no_fault.
Qed.

(** C7 fails on the code.  The three local [static]s of the handoff are
    initialised by the first homing sequence of the process and never
    again: when a second homing sequence completes at t = 20000 ms and
    [just_homed_] becomes true again, [transition_start_time] still holds
    the 1000 ms of the first handoff.  The progress of the second handoff
    is 1 on its first tick, and that tick clears [just_homed_]: the
    interpolation does not take place. *)
Theorem second_handoff_keeps_first_latch :
  transition_start_time first_handoff = Some 1000%Z
  /\ just_homed_ first_handoff = true
  /\ just_homed_ handoff_done = false
  /\ just_homed_ (homing_complete (snapshot second_homing_requested)) = true
  /\ second_handoff
     = position_control_case 20000
         (homing_complete (snapshot second_homing_requested))
  /\ transition_start_time second_handoff = Some 1000%Z
  /\ transition_start_time second_handoff <> Some 20000%Z
  /\ handoff_progress 20000
       (homing_complete (snapshot second_homing_requested)) = 1
  /\ just_homed_ second_handoff = false.
Proof.
  destruct first_handoff_setup as [_ [_ [_ [J1 T1]]]].
  destruct handoff_done_setup as [_ [_ [J2 T2]]].
  set (m := homing_complete (snapshot second_homing_requested)).
  assert (Tm : transition_start_time m = Some 1000%Z) by exact T2.
  assert (P : handoff_progress 20000 m = 1).
  { rewrite (handoff_progress_latched 20000 1000 _ Tm).
    change (elapsed 20000 1000) with 19000%Z.
    unfold clamp_progress, transition_duration. rdec. }
  assert (T3 : transition_start_time second_handoff = Some 1000%Z).
  { rewrite second_handoff_eq, position_control_case_latch. fold m.
    change (just_homed_ m) with true. cbv iota. now rewrite Tm. }
  repeat split; try assumption.
  - exact second_handoff_eq.
  - rewrite T3. discriminate.
  - rewrite second_handoff_eq, position_control_case_just_homed. fold m.
    rewrite P. change (just_homed_ m) with true. cbn. rdec.
Qed.

(** ** The fault gate on a homing tick *)

Lemma elapsed_same (now : Z) : elapsed now now = 0%Z.
Proof. unfold elapsed. now rewrite Z.sub_diag, Zmod_0_l. Qed.

Lemma clamp_progress_0 : clamp_progress (IZR 0 / transition_duration) = 0.
Proof. unfold clamp_progress, transition_duration. rdec. Qed.

(** The currents of the first tick of the first handoff of a process. *)
Lemma first_handoff_currents (now : Z) (s : DriveSystem) :
  just_homed_ s = true ->
  transition_start_time s = None ->
  start_positions s = None ->
  position_control_currents now s
  = tabulate (fun i =>
      kd (position_gains_ s)
      * (at_ (velocity_reference_ s) i - GetActuatorVelocity s i)).
Proof.
  intros Hj Ht Hs. unfold position_control_currents.
  rewrite Hj, Hs, (handoff_progress_first now s Ht), elapsed_same.
  rewrite clamp_progress_0, smooth_progress_0.
  unfold pd_currents, static_value. apply tabulate_ext. intros i Hi.
  rewrite at_tabulate by exact Hi.
  unfold GetActuatorPositions. rewrite at_tabulate by exact Hi.
  unfold interpolate, PD. ring.
Qed.

Lemma homing_fault_buses (now : Z) (s : DriveSystem) :
  let s' :=
    set_control_mode_ kError
      (latch_statics now (homing_complete (snapshot s))) in
  front_bus_ s' = front_bus_ s /\ rear_bus_ s' = rear_bus_ s.
Proof. split; reflexivity. Qed.

(** C5 as stated fails: with [fault_current_ = 1/2] below the homing
    current limit 2, [kd = 1] and actuator 0 moving at velocity 1, the
    homing tick passes the fault check at its top, finds every raw start
    position at 0, completes the calibration and falls through; the PD
    current of actuator 0 is 1, past the fault current, so [CommandCurrents]
    sets the mode to Error and sends nothing: the tick does not end in
    PositionControl and no PD current is commanded. *)
Lemma homing_tick_trips_fault_gate_counterexample :
  control_mode_ homing_low_fault_current = kHoming
  /\ CheckErrors homing_low_fault_current = kIdle
  /\ position_warning (GetRawActuatorPositions homing_low_fault_current)
     = false
  /\ control_mode_ (toy_Update 1000 homing_low_fault_current) = kError
  /\ sends_nothing homing_low_fault_current
       (toy_Update 1000 homing_low_fault_current).
Proof.
  set (s := homing_low_fault_current).
  assert (Hok : CheckErrors s = kIdle).
  { apply CheckErrors_idle. intros i Hi. pose proof PI_RGT_0.
    each_actuator i Hi; readout; split; apply Rabs_le_bound; lra. }
  assert (Hnear : forall i, (i < kNumActuators)%nat ->
            Rabs (GetRawActuatorPosition s i) <= 15 / 100).
  { intros i Hi. each_actuator i Hi; readout; apply Rabs_le_bound; lra. }
  set (mid := homing_complete (snapshot s)).
  assert (E : toy_Update 1000 s
              = set_control_mode_ kError (latch_statics 1000 mid)).
  { unfold toy_Update.
    rewrite (Update_completes_homing _ _ _ 1000 s eq_refl Hok Hnear).
    fold mid. rewrite position_control_case_eq. cbv zeta.
    change (just_homed_ mid) with true. cbv iota. simpl andb.
    rewrite (handoff_progress_first 1000 mid eq_refl), elapsed_same.
    rewrite clamp_progress_0.
    assert (G : Rgeb 0 1 = false) by (apply Rgeb_false; lra).
    rewrite G.
    rewrite (first_handoff_currents 1000 mid eq_refl eq_refl eq_refl).
    apply CommandCurrents_fault.
    set (f := fun i : nat =>
                kd (position_gains_ mid)
                * (at_ (velocity_reference_ mid) i
                   - GetActuatorVelocity mid i)).
    set (lo := - max_current_ (latch_statics 1000 mid)).
    set (hi := max_current_ (latch_statics 1000 mid)).
    assert (L : length (Utils.Constrain (tabulate f) lo hi) = 12%nat).
    { rewrite Constrain_length. unfold tabulate.
      now rewrite length_map, length_seq. }
    apply fault_gate_true.
    - intros N. rewrite N in L. discriminate.
    - exists (at_ (Utils.Constrain (tabulate f) lo hi) 0). split.
      + apply nth_In. rewrite L. lia.
      + rewrite at_Constrain_tabulate by (unfold kNumActuators; lia).
        subst f lo hi. readout. unfold Utils.constrain.
        rdec; unfold Rabs; destruct (Rcase_abs _); lra. }
  split; [reflexivity|]. split; [exact Hok|].
  split.
  - apply position_warning_false. intros i Hi.
    unfold GetRawActuatorPositions. rewrite at_tabulate by exact Hi.
    now apply Hnear.
  - rewrite E. split; [reflexivity|].
    destruct (homing_fault_buses 1000 s) as [Bf Br]. cbv zeta in Bf, Br.
    unfold sends_nothing, mid. rewrite Bf, Br. split; reflexivity.
Qed.

(** * Further properties *)

(** ** Calibration *)

Lemma raw_position_same_bus (s s' : DriveSystem) (i : nat) :
  controllers (front_bus_ s') = controllers (front_bus_ s) ->
  controllers (rear_bus_ s') = controllers (rear_bus_ s) ->
  GetRawActuatorPosition s' i = GetRawActuatorPosition s i.
Proof.
  intros Hf Hr. unfold GetRawActuatorPosition, GetController, Get.
  destruct (i <=? kNumActuatorsPerBus - 1); [cbn; congruence|].
  destruct (_ && _); cbn; congruence.
Qed.

Lemma same_setup_snapshot_homing (s : DriveSystem) :
  same_setup s (homing_complete (snapshot s)).
Proof. unfold same_setup. repeat split; reflexivity. Qed.

(** X2.  [ZeroCurrentPosition] makes the calibrated position of every
    actuator zero, whatever the raw positions and the wiring signs. *)
Theorem ZeroCurrentPosition_zeroes (s : DriveSystem) (i : nat) :
  (i < kNumActuators)%nat ->
  GetActuatorPosition (ZeroCurrentPosition s) i = 0.
Proof.
  intros Hi. unfold GetActuatorPosition.
  assert (S : same_setup s (ZeroCurrentPosition s))
    by (unfold same_setup; repeat split; reflexivity).
  rewrite (raw_position_ext _ _ i S).
  change (zero_position_ (ZeroCurrentPosition s))
    with (tabulate (GetRawActuatorPosition s)).
  rewrite at_tabulate by exact Hi. ring.
Qed.

Lemma ZeroCurrentPosition_zeroes_witness :
  GetActuatorPosition (ZeroCurrentPosition overtravel) 0 = 0.
Proof.
  apply (ZeroCurrentPosition_zeroes overtravel 0).
  unfold kNumActuators. lia.
Defined.

Section HomingOutcome.

Variable ForwardKinematics : Vec3 -> nat -> Vec3.
Variable LegJacobian : Vec3 -> nat -> Mat3.
Variable HipPosition : nat -> Vec3.

Local Abbreviation tick := (Update ForwardKinematics LegJacobian HipPosition).

Lemma homed_tick_calibration (now : Z) (s : DriveSystem) :
  control_mode_ s = kHoming ->
  CheckErrors s = kIdle ->
  (forall i, (i < kNumActuators)%nat
     -> Rabs (GetRawActuatorPosition s i) <= 15 / 100) ->
  same_setup s (tick now s)
  /\ calibration (tick now s) = calibration (homing_complete (snapshot s)).
Proof.
  intros Hmode Hok Hstart.
  rewrite (Update_completes_homing _ _ _ now s Hmode Hok Hstart).
  split.
  - eapply same_setup_trans; [apply same_setup_snapshot_homing|].
    apply position_control_case_setup.
  - destruct (position_control_case_frame now (homing_complete (snapshot s)))
      as [Fz [Fh [Fp _]]].
    unfold calibration. now rewrite Fz, Fh, Fp.
Qed.

Lemma CheckHomingStatus_all_homed (s : DriveSystem) (axes : list nat) :
  homed_axes_ s = tabulate (fun _ => true) ->
  (forall a, In a axes -> (a < kNumActuators)%nat) ->
  CheckHomingStatus s axes = true.
Proof.
  intros Hh. induction axes as [|a rest IH]; intros Hin; simpl.
  - reflexivity.
  - rewrite Hh, atb_tabulate by (apply Hin; now left). simpl.
    apply IH. intros b Hb. apply Hin. now right.
Qed.

(** X4.  After a homing tick that completes, [CheckHomingStatus] answers
    true for every group of axes below 12; and when
    [0 <= max_current_ <= fault_current_] the tick ends in
    PositionControl. *)
Theorem homed_status (now : Z) (s : DriveSystem) (axes : list nat) :
  control_mode_ s = kHoming ->
  CheckErrors s = kIdle ->
  (forall i, (i < kNumActuators)%nat
     -> Rabs (GetRawActuatorPosition s i) <= 15 / 100) ->
  (forall a, In a axes -> (a < kNumActuators)%nat) ->
  CheckHomingStatus (tick now s) axes = true
  /\ (0 <= max_current_ s <= fault_current_ s ->
      control_mode_ (tick now s) = kPositionControl).
Proof.
  intros Hmode Hok Hstart Hin. split.
  - destruct (homed_tick_calibration now s Hmode Hok Hstart) as [_ C].
    assert (Ch : homed_axes_ (tick now s)
                 = homed_axes_ (homing_complete (snapshot s)))
      by (unfold calibration in C; congruence).
    apply CheckHomingStatus_all_homed; [|exact Hin].
    now rewrite Ch, homing_complete_homed.
  - intros Hlim.
    rewrite (Update_completes_homing _ _ _ now s Hmode Hok Hstart).
    now rewrite position_control_case_mode_within.
Qed.

Lemma CheckHomingStatus_none_homed (s : DriveSystem) (axes : list nat) :
  homed_axes_ s = tabulate (fun _ => false) ->
  axes <> [] ->
  (forall a, In a axes -> (a < kNumActuators)%nat) ->
  CheckHomingStatus s axes = false.
Proof.
  intros Hh Hne Hin. destruct axes as [|a rest]; [easy|]. simpl.
  rewrite Hh, atb_tabulate by (apply Hin; now left). reflexivity.
Qed.

Lemma aborted_tick_homed_axes (now : Z) (s : DriveSystem) :
  control_mode_ s = kHoming ->
  (exists i, (i < kNumActuators)%nat
     /\ Rabs (GetRawActuatorPosition s i) > 15 / 100) ->
  homed_axes_ (tick now s) = homed_axes_ s.
Proof.
  intros Hmode Hwarn. destruct (CheckErrors_cases s) as [E | E].
  - apply CheckErrors_error in E.
    rewrite (Update_on_fault _ _ _ now s E). unfold CommandIdle.
    apply (CommandCurrents_frame (fill 0) (set_control_mode_ kError s)).
  - rewrite (Update_no_fault _ _ _ now s E), Hmode.
    now rewrite (homing_case_abort now s Hwarn).
Qed.

(** X5.  After [ExecuteHomingSequence], [CheckHomingStatus] answers false
    for every non-empty group of axes below 12 (and true for the empty
    group), and it still answers false after a homing tick that aborts on
    a start position past 0.15. *)
Theorem status_after_ExecuteHomingSequence (now : Z) (s : DriveSystem)
    (axes : list nat) :
  axes <> [] ->
  (forall a, In a axes -> (a < kNumActuators)%nat) ->
  CheckHomingStatus (ExecuteHomingSequence s) [] = true
  /\ CheckHomingStatus (ExecuteHomingSequence s) axes = false
  /\ ((exists i, (i < kNumActuators)%nat
         /\ Rabs (GetRawActuatorPosition s i) > 15 / 100) ->
      CheckHomingStatus (tick now (ExecuteHomingSequence s)) axes = false).
Proof.
  intros Hne Hin. split; [reflexivity|]. split.
  - now apply CheckHomingStatus_none_homed.
  - intros [i [Hi Hw]].
    apply CheckHomingStatus_none_homed; [|exact Hne|exact Hin].
    rewrite aborted_tick_homed_axes; [reflexivity..|].
    exists i. split; [exact Hi|].
    now rewrite (raw_position_same_bus s (ExecuteHomingSequence s) i).
Qed.

End HomingOutcome.

Lemma homed_status_witness :
  CheckHomingStatus (toy_Update 1000 homing_requested) knee_axes_ = true
  /\ control_mode_ (toy_Update 1000 homing_requested) = kPositionControl.
Proof.
  assert (Hin : forall a, In a knee_axes_ -> (a < kNumActuators)%nat).
  { unfold knee_axes_, kNumActuators. simpl. intros a H.
    repeat (destruct H as [<- | H]; [lia|]). destruct H. }
  destruct (homed_status toy_ForwardKinematics toy_LegJacobian toy_HipPosition
              1000 homing_requested knee_axes_ eq_refl
              homing_requested_no_fault homing_requested_near_stop Hin)
    as [A B].
  split; [exact A|]. apply B. cbn. lra.
Defined.

Lemma status_after_ExecuteHomingSequence_witness :
  CheckHomingStatus (ExecuteHomingSequence overtravel) hip_axes_ = false
  /\ CheckHomingStatus
       (toy_Update 1000 (ExecuteHomingSequence overtravel)) hip_axes_
     = false.
Proof.
  assert (Hne : hip_axes_ <> []) by discriminate.
  assert (Hin : forall a, In a hip_axes_ -> (a < kNumActuators)%nat).
  { unfold hip_axes_, kNumActuators. simpl. intros a H.
    repeat (destruct H as [<- | H]; [lia|]). destruct H. }
  destruct (status_after_ExecuteHomingSequence toy_ForwardKinematics
              toy_LegJacobian toy_HipPosition 1000 overtravel hip_axes_
              Hne Hin)
    as [_ [A B]].
  split; [exact A|]. apply B.
  exists 0%nat. split; [unfold kNumActuators; lia|].
  readout. unfold Rabs. destruct (Rcase_abs 5); lra.
Defined.

(** ** What a tick does to the state *)

Lemma CommandCurrents_configuration (currents : list R) (s : DriveSystem) :
  configuration (CommandCurrents currents s) = configuration s.
Proof. unfold CommandCurrents. destruct (_ || _); reflexivity. Qed.

Lemma position_control_case_configuration (now : Z) (s : DriveSystem) :
  configuration (position_control_case now s) = configuration s.
Proof.
  rewrite position_control_case_eq. cbv zeta.
  generalize (position_control_currents now s) as c; intros c.
  destruct (just_homed_ s); simpl andb.
  - destruct (Rgeb _ _);
      exact (CommandCurrents_configuration c (latch_statics now s)).
  - apply CommandCurrents_configuration.
Qed.

Lemma homing_case_configuration (now : Z) (s : DriveSystem) :
  configuration (homing_case now s) = configuration s.
Proof.
  unfold homing_case. destruct (position_warning _); [reflexivity|].
  now rewrite position_control_case_configuration.
Qed.

(** How [CommandCurrents] ends: the gate fired, nothing was sent and the
    mode is Error; or one dispatch was issued and the mode is kept. *)
Lemma CommandCurrents_outcome (currents : list R) (s : DriveSystem) :
  let s' := CommandCurrents currents s in
  (sends_nothing s s' /\ control_mode_ s' = kError)
  \/ (control_mode_ s' = control_mode_ s /\ exists mA, dispatched s s' mA).
Proof.
  cbv zeta.
  destruct (fault_gate
              (Utils.Constrain currents (- max_current_ s) (max_current_ s))
              (fault_current_ s)) eqn:G.
  - left. rewrite (CommandCurrents_fault _ _ G).
    split; [split|]; reflexivity.
  - right. destruct (CommandCurrents_pass _ _ G) as [M [_ [Fr Re]]].
    split; [exact M|]. eexists. split; eassumption.
Qed.

Lemma position_control_case_outcome (now : Z) (s : DriveSystem) :
  let s' := position_control_case now s in
  (sends_nothing s s' /\ control_mode_ s' = kError)
  \/ (control_mode_ s' = control_mode_ s /\ exists mA, dispatched s s' mA).
Proof.
  cbv zeta. rewrite position_control_case_eq. cbv zeta.
  generalize (position_control_currents now s) as c; intros c.
  destruct (just_homed_ s); simpl andb.
  - pose proof (CommandCurrents_outcome c (latch_statics now s)) as O.
    cbv zeta in O. destruct (Rgeb _ _); exact O.
  - apply CommandCurrents_outcome.
Qed.

Section TickOutcome.

Variable ForwardKinematics : Vec3 -> nat -> Vec3.
Variable LegJacobian : Vec3 -> nat -> Mat3.
Variable HipPosition : nat -> Vec3.

Local Abbreviation tick := (Update ForwardKinematics LegJacobian HipPosition).

(** X6.  No tick writes a limit, a gain, a reference other than
    [position_reference_], the activation mask, a wiring or homing constant
    or the telemetry of a bus. *)
Theorem Update_keeps_configuration (now : Z) (s : DriveSystem) :
  configuration (tick now s) = configuration s.
Proof.
  unfold Update.
  set (s1 := match CheckErrors s with
             | kError => set_control_mode_ kError s
             | _ => s
             end).
  assert (E : configuration s1 = configuration s)
    by (subst s1; destruct (CheckErrors s); reflexivity).
  rewrite <- E. clearbody s1.
  destruct (control_mode_ s1); unfold CommandIdle;
    first [ apply CommandCurrents_configuration
          | apply homing_case_configuration
          | apply position_control_case_configuration ].
Qed.

(** X7.  A tick in any mode but Homing leaves the zero offsets, the homed
    flags and [position_reference_] as they are. *)
Theorem Update_keeps_calibration (now : Z) (s : DriveSystem) :
  control_mode_ s <> kHoming ->
  calibration (tick now s) = calibration s.
Proof.
  intros Hmode. unfold Update.
  set (s1 := match CheckErrors s with
             | kError => set_control_mode_ kError s
             | _ => s
             end).
  assert (E : calibration s1 = calibration s
              /\ control_mode_ s1 <> kHoming).
  { subst s1. destruct (CheckErrors s); split;
      try reflexivity; try exact Hmode; discriminate. }
  destruct E as [E Hm1]. rewrite <- E. clearbody s1.
  assert (C : forall c, calibration (CommandCurrents c s1) = calibration s1).
  { intros c. destruct (CommandCurrents_frame c s1) as [Fz [Fh [Fp _]]].
    unfold calibration. now rewrite Fz, Fh, Fp. }
  destruct (control_mode_ s1); try apply C; [easy|].
  destruct (position_control_case_frame now s1) as [Fz [Fh [Fp _]]].
  unfold calibration. now rewrite Fz, Fh, Fp.
Qed.

(** X8.  The mode after a tick is the mode before it or Error; the one
    other transition a tick makes is from Homing to PositionControl. *)
Theorem Update_mode_transitions (now : Z) (s : DriveSystem) :
  control_mode_ (tick now s) = control_mode_ s
  \/ control_mode_ (tick now s) = kError
  \/ (control_mode_ s = kHoming
      /\ control_mode_ (tick now s) = kPositionControl).
Proof.
  destruct (CheckErrors_cases s) as [E | E].
  - right. left. apply Update_fault_mode. now apply CheckErrors_error.
  - rewrite (Update_no_fault _ _ _ now s E).
    destruct (control_mode_ s) eqn:M; unfold CommandIdle;
      try match goal with
          | |- context [CommandCurrents ?c s] =>
              destruct (CommandCurrents_mode c s) as [C | C];
                rewrite ?M in C; auto
          end.
    + unfold homing_case. destruct (position_warning _).
      * right. now left.
      * destruct (position_control_case_mode now
                    (homing_complete (snapshot s))) as [P | P].
        -- right. now left.
        -- right. right. split; [reflexivity | exact P].
    + destruct (position_control_case_mode now s) as [P | P];
        rewrite ?M in P; auto.
Qed.

(** X9.  A tick never alters what was sent to the buses before it: it
    appends one dispatch (two [CommandTorques] calls per bus), or it sends
    nothing, and a tick that sends nothing ends in the error state. *)
Theorem Update_dispatches_or_errors (now : Z) (s : DriveSystem) :
  (sends_nothing s (tick now s) /\ control_mode_ (tick now s) = kError)
  \/ exists mA, dispatched s (tick now s) mA.
Proof.
  unfold Update.
  set (s1 := match CheckErrors s with
             | kError => set_control_mode_ kError s
             | _ => s
             end).
  assert (E : front_bus_ s1 = front_bus_ s /\ rear_bus_ s1 = rear_bus_ s)
    by (subst s1; destruct (CheckErrors s); split; reflexivity).
  destruct E as [Ef Er]. unfold sends_nothing, dispatched.
  rewrite <- Ef, <- Er. clearbody s1.
  assert (C : forall c,
            (sends_nothing s1 (CommandCurrents c s1)
             /\ control_mode_ (CommandCurrents c s1) = kError)
            \/ exists mA, dispatched s1 (CommandCurrents c s1) mA).
  { intros c. destruct (CommandCurrents_outcome c s1) as [O | [_ O]];
      [left | right]; exact O. }
  assert (P : (sends_nothing s1 (position_control_case now s1)
               /\ control_mode_ (position_control_case now s1) = kError)
              \/ exists mA, dispatched s1 (position_control_case now s1) mA).
  { destruct (position_control_case_outcome now s1) as [O | [_ O]];
      [left | right]; exact O. }
  destruct (control_mode_ s1); unfold CommandIdle;
    try apply C; try exact P.
  unfold homing_case. destruct (position_warning _).
  - left. split; [split|]; reflexivity.
  - destruct (position_control_case_outcome now
                (homing_complete
                   (set_start_position_ (GetRawActuatorPositions s1) s1)))
      as [O | [_ O]]; [left | right]; exact O.
Qed.

End TickOutcome.

Lemma Update_keeps_calibration_witness :
  calibration (toy_Update 1 faulted) = calibration faulted.
Proof.
  apply (Update_keeps_calibration toy_ForwardKinematics toy_LegJacobian
           toy_HipPosition 1 faulted).
  rewrite faulted_mode. discriminate.
Defined.

(** ** What the pipeline records and sends *)

Lemma at_MaskArray (arr : list R) (mask : list bool) (i : nat) :
  at_ (Utils.MaskArray arr mask) i = if atb mask i then at_ arr i else 0.
Proof.
  unfold at_, atb. revert mask i.
  induction arr as [|x t IH]; intros mask i; simpl.
  - destruct i; now destruct (nth _ mask false).
  - destruct i as [|j].
    + now destruct mask.
    + rewrite IH. destruct mask as [|b m]; simpl; [now destruct j|].
      reflexivity.
Qed.

Lemma MaskArray_length (arr : list R) (mask : list bool) :
  length (Utils.MaskArray arr mask) = length arr.
Proof.
  revert mask. induction arr as [|x t IH]; intros mask; simpl; auto.
Qed.

Lemma at_Constrain (arr : list R) (lo hi : R) (i : nat) :
  (i < length arr)%nat ->
  at_ (Utils.Constrain arr lo hi) i = Utils.constrain (at_ arr i) lo hi.
Proof.
  intros Hi. unfold at_, Utils.Constrain.
  rewrite (nth_indep _ 0 (Utils.constrain 0 lo hi))
    by now rewrite length_map.
  apply (map_nth (fun x => Utils.constrain x lo hi)).
Qed.

Lemma at_Constrain_bound (arr : list R) (m : R) (i : nat) :
  0 <= m -> - m <= at_ (Utils.Constrain arr (- m) m) i <= m.
Proof.
  intros Hm. destruct (Nat.lt_ge_cases i (length arr)) as [Hi | Hi].
  - rewrite at_Constrain by exact Hi. apply constrain_range. lra.
  - unfold at_. rewrite nth_overflow by now rewrite Constrain_length. lra.
Qed.

Lemma at_ElemMultiply (a b : list R) (i : nat) :
  at_ (Utils.ElemMultiply a b) i = at_ a i * at_ b i.
Proof.
  unfold at_. revert b i. induction a as [|x t IH]; intros b i; simpl.
  - destruct i; ring.
  - destruct i as [|j].
    + now destruct b.
    + rewrite IH. destruct b as [|y b]; simpl; [|reflexivity].
      destruct j; reflexivity.
Qed.

Lemma atz_commanded_mA (s : DriveSystem) (cmd : list R) (i : nat) :
  atz (commanded_mA s cmd) i
  = Utils.round (at_ cmd i * at_ (direction_multipliers_ s) i * 1000).
Proof.
  unfold commanded_mA, Utils.ConvertToFixedPoint.
  rewrite <- at_ElemMultiply.
  set (l := Utils.ElemMultiply cmd (direction_multipliers_ s)).
  unfold atz, at_. destruct (Nat.lt_ge_cases i (length l)) as [Hi | Hi].
  - rewrite (nth_indep _ 0%Z (Utils.round (0 * 1000)))
      by now rewrite length_map.
    apply (map_nth (fun x => Utils.round (x * 1000))).
  - rewrite nth_overflow by now rewrite length_map.
    rewrite (nth_overflow l) by exact Hi.
    now rewrite Rmult_0_l, round_zero.
Qed.

(** X10.  When [0 <= max_current_ <= fault_current_], [CommandCurrents]
    records a command of the length of the request whose every entry is
    within [max_current_] in magnitude, and dispatches it; the entry of an
    actuator that is not active is 0, and so is the milliamp value sent
    for it. *)
Theorem CommandCurrents_bounded_and_masked (currents : ActuatorCurrentVector)
    (s : DriveSystem) :
  0 <= max_current_ s <= fault_current_ s ->
  let s' := CommandCurrents currents s in
  let recorded := last_commanded_current_ s' in
  length recorded = length currents
  /\ dispatched s s' (commanded_mA s recorded)
  /\ forall i,
       Rabs (at_ recorded i) <= max_current_ s
       /\ (atb (active_mask_ s) i = false ->
           at_ recorded i = 0 /\ atz (commanded_mA s recorded) i = 0%Z).
Proof.
  intros H. cbv zeta.
  destruct (CommandCurrents_pass currents s
              (fault_gate_clamped currents _ _ H)) as [_ [Lc [Fr Re]]].
  rewrite Lc. split; [now rewrite MaskArray_length, Constrain_length|].
  split; [split; assumption|].
  intros i. rewrite at_MaskArray. split.
  - pose proof (at_Constrain_bound currents (max_current_ s) i) as B.
    destruct (atb (active_mask_ s) i).
    + apply Rabs_le_bound. apply B. lra.
    + rewrite Rabs_R0. lra.
  - intros Hoff. rewrite atz_commanded_mA, at_MaskArray, Hoff.
    split; [reflexivity|]. now rewrite !Rmult_0_l, round_zero.
Qed.

Lemma CommandCurrents_bounded_and_masked_witness :
  Rabs (at_ (last_commanded_current_
               (CommandCurrents (fill 3) homing_requested)) 4) <= 2.
Proof.
  assert (H : 0 <= max_current_ homing_requested
              <= fault_current_ homing_requested) by (cbn; lra).
  destruct (CommandCurrents_bounded_and_masked (fill 3) homing_requested H)
    as [_ [_ B]].
  apply (B 4%nat).
Defined.

Lemma Constrain_to_zero (arr : list R) :
  Utils.Constrain arr (- 0) 0 = repeat 0 (length arr).
Proof.
  unfold Utils.Constrain. induction arr as [|x t IH]; simpl; [reflexivity|].
  rewrite IH. f_equal.
  pose proof (constrain_range x (- 0) 0). lra.
Qed.

Lemma front_commands_zeros (n : nat) :
  front_commands (repeat 0%Z n) = zero_commands.
Proof. unfold front_commands, atz. now rewrite !nth_repeat. Qed.

Lemma rear_commands_zeros (n : nat) :
  rear_commands (repeat 0%Z n) = zero_commands.
Proof. unfold rear_commands, atz. now rewrite !nth_repeat. Qed.

(** X11.  While [max_current_] is 0, as the constructor leaves it, and
    [fault_current_] is not negative, [CommandCurrents] turns every request
    into all-zero current on both buses and keeps the mode. *)
Theorem CommandCurrents_zero_limit (currents : ActuatorCurrentVector)
    (s : DriveSystem) :
  max_current_ s = 0 ->
  0 <= fault_current_ s ->
  let s' := CommandCurrents currents s in
  control_mode_ s' = control_mode_ s
  /\ last_commanded_current_ s' = repeat 0 (length currents)
  /\ commands_all_zero s s'.
Proof.
  intros Hm Hf. cbv zeta.
  assert (H : 0 <= max_current_ s <= fault_current_ s) by lra.
  destruct (CommandCurrents_pass currents s
              (fault_gate_clamped currents _ _ H)) as [M [Lc [Fr Re]]].
  rewrite Hm, Constrain_to_zero, MaskArray_zeros in Lc, Fr, Re.
  rewrite commanded_mA_zeros in Fr, Re.
  rewrite front_commands_zeros in Fr. rewrite rear_commands_zeros in Re.
  repeat split; assumption.
Qed.

Lemma CommandCurrents_zero_limit_witness :
  control_mode_ (CommandCurrents (fill 7) fresh) = kIdle
  /\ commands_all_zero fresh (CommandCurrents (fill 7) fresh).
Proof.
  assert (Hf : 0 <= fault_current_ fresh) by (cbn; lra).
  destruct (CommandCurrents_zero_limit (fill 7) fresh eq_refl Hf)
    as [M [_ Z]].
  split; [exact M | exact Z].
Defined.

(** ** Ticks in Idle, Error and CurrentControl *)

Lemma CheckErrors_SetCurrent (i : nat) (v : R) (s : DriveSystem) :
  CheckErrors (SetCurrent i v s) = CheckErrors s.
Proof.
  apply CheckErrors_ext; [|reflexivity].
  unfold same_setup. repeat split; reflexivity.
Qed.

Section QuietTicks.

Variable ForwardKinematics : Vec3 -> nat -> Vec3.
Variable LegJacobian : Vec3 -> nat -> Mat3.
Variable HipPosition : nat -> Vec3.

Local Abbreviation tick := (Update ForwardKinematics LegJacobian HipPosition).

(** X12.  In Idle or Error mode, with no actuator fault and non-negative
    [max_current_] and [fault_current_], a tick keeps the mode and commands
    all-zero current to both buses, whatever references are set. *)
Theorem Update_idle_commands_zero (now : Z) (s : DriveSystem) :
  control_mode_ s = kIdle \/ control_mode_ s = kError ->
  CheckErrors s = kIdle ->
  0 <= max_current_ s ->
  0 <= fault_current_ s ->
  control_mode_ (tick now s) = control_mode_ s
  /\ commands_all_zero s (tick now s).
Proof.
  intros Hmode Hok Hm Hf. rewrite (Update_no_fault _ _ _ now s Hok).
  destruct Hmode as [M | M]; rewrite M; rewrite <- M;
    now apply CommandIdle_zero.
Qed.

(** X13.  [SetCurrent(i, v)] followed by a tick, with no actuator fault and
    [0 <= max_current_ <= fault_current_]: the tick stays in
    CurrentControl and the command it records has, at every index [j] of
    the reference, the reference clamped to [max_current_] if actuator [j]
    is active and 0 otherwise; the reference is [v] at [i] and the earlier
    value elsewhere. *)
Theorem SetCurrent_then_tick (now : Z) (i : nat) (v : R) (s : DriveSystem) :
  CheckErrors s = kIdle ->
  0 <= max_current_ s <= fault_current_ s ->
  (i < length (current_reference_ s))%nat ->
  let s' := tick now (SetCurrent i v s) in
  control_mode_ s' = kCurrentControl
  /\ at_ (last_commanded_current_ s') i
     = (if atb (active_mask_ s) i
        then Utils.constrain v (- max_current_ s) (max_current_ s) else 0)
  /\ forall j, j <> i -> (j < length (current_reference_ s))%nat ->
       at_ (last_commanded_current_ s') j
       = (if atb (active_mask_ s) j
          then Utils.constrain (at_ (current_reference_ s) j)
                 (- max_current_ s) (max_current_ s)
          else 0).
Proof.
  intros Hok Hlim Hi. cbv zeta.
  rewrite Update_no_fault by now rewrite CheckErrors_SetCurrent.
  change (control_mode_ (SetCurrent i v s)) with kCurrentControl. cbv iota.
  set (s2 := SetCurrent i v s).
  assert (H2 : 0 <= max_current_ s2 <= fault_current_ s2) by exact Hlim.
  destruct (CommandCurrents_pass (current_reference_ s2) s2
              (fault_gate_clamped _ _ _ H2)) as [M [Lc _]].
  rewrite Lc. split; [exact M|].
  change (active_mask_ s2) with (active_mask_ s).
  change (max_current_ s2) with (max_current_ s).
  change (current_reference_ s2)
    with (array_set (current_reference_ s) i v).
  split.
  - rewrite at_MaskArray, at_Constrain
      by now rewrite array_set_length.
    now rewrite array_set_same.
  - intros j Hj Hlen.
    rewrite at_MaskArray, at_Constrain
      by now rewrite array_set_length.
    now rewrite array_set_other.
Qed.

End QuietTicks.

Lemma Update_idle_commands_zero_witness :
  control_mode_ (toy_Update 5 fresh) = kIdle
  /\ commands_all_zero fresh (toy_Update 5 fresh).
Proof.
  assert (Hok : CheckErrors fresh = kIdle).
  { apply CheckErrors_idle. intros i Hi. pose proof PI_RGT_0.
    each_actuator i Hi; readout; split; apply Rabs_le_bound; lra. }
  apply (Update_idle_commands_zero toy_ForwardKinematics toy_LegJacobian
           toy_HipPosition 5 fresh (or_introl eq_refl) Hok); cbn; lra.
Defined.

Lemma SetCurrent_then_tick_witness :
  control_mode_ (toy_Update 5 (SetCurrent 3 9 homing_requested))
  = kCurrentControl
  /\ at_ (last_commanded_current_
            (toy_Update 5 (SetCurrent 3 9 homing_requested))) 3
     = Utils.constrain 9 (- 2) 2.
Proof.
  assert (Hlim : 0 <= max_current_ homing_requested
                 <= fault_current_ homing_requested) by (cbn; lra).
  assert (Hi : (3 < length (current_reference_ homing_requested))%nat)
    by (cbn; lia).
  destruct (SetCurrent_then_tick toy_ForwardKinematics toy_LegJacobian
              toy_HipPosition 5 3 9 homing_requested
              homing_requested_no_fault Hlim Hi) as [M [A _]].
  split; [exact M | exact A].
Defined.

(** ** The handoff after homing *)

Lemma velocity_ext (s s' : DriveSystem) (i : nat) :
  same_setup s s' -> GetActuatorVelocity s' i = GetActuatorVelocity s i.
Proof.
  intros H. pose proof (GetController_ext s s' i H) as E.
  unfold same_setup in H. decompose [and] H.
  unfold GetActuatorVelocity. congruence.
Qed.

Section Handoff.

Variable ForwardKinematics : Vec3 -> nat -> Vec3.
Variable LegJacobian : Vec3 -> nat -> Mat3.
Variable HipPosition : nat -> Vec3.

Local Abbreviation tick := (Update ForwardKinematics LegJacobian HipPosition).

(** X14.  The first homing of a process (the local statics of the handoff
    not yet initialised): the tick that completes homing hands to
    [CommandCurrents] a PD current with no position term,
    [kd * (velocity_reference_[i] - velocity[i])] for every actuator, and
    leaves [just_homed_] set. *)
Theorem first_homing_starts_smoothly (now : Z) (s : DriveSystem) :
  control_mode_ s = kHoming ->
  CheckErrors s = kIdle ->
  (forall i, (i < kNumActuators)%nat
     -> Rabs (GetRawActuatorPosition s i) <= 15 / 100) ->
  transition_start_time s = None ->
  start_positions s = None ->
  tick now s
  = CommandCurrents
      (tabulate (fun i =>
         kd (position_gains_ s)
         * (at_ (velocity_reference_ s) i - GetActuatorVelocity s i)))
      (latch_statics now (homing_complete (snapshot s)))
  /\ just_homed_ (tick now s) = true.
Proof.
  intros Hmode Hok Hstart Ht Hs.
  rewrite (Update_completes_homing _ _ _ now s Hmode Hok Hstart).
  set (mid := homing_complete (snapshot s)).
  assert (P : handoff_progress now mid = 0).
  { rewrite (handoff_progress_first now mid Ht), elapsed_same.
    apply clamp_progress_0. }
  assert (G : Rgeb (handoff_progress now mid) 1 = false)
    by (rewrite P; apply Rgeb_false; lra).
  split.
  - rewrite position_control_case_eq. cbv zeta.
    change (just_homed_ mid) with true. rewrite G. cbv iota. simpl andb.
    cbv iota. f_equal.
    rewrite (first_handoff_currents now mid eq_refl Ht Hs).
    apply tabulate_ext. intros i Hi.
    assert (V : GetActuatorVelocity mid i = GetActuatorVelocity s i).
    { apply velocity_ext. apply same_setup_snapshot_homing. }
    now rewrite V.
  - rewrite position_control_case_just_homed, G. reflexivity.
Qed.

End Handoff.

Lemma first_homing_starts_smoothly_witness :
  just_homed_ (toy_Update 1000 homing_requested) = true.
Proof.
  apply (first_homing_starts_smoothly toy_ForwardKinematics toy_LegJacobian
           toy_HipPosition 1000 homing_requested eq_refl
           homing_requested_no_fault homing_requested_near_stop
           eq_refl eq_refl).
Defined.

Lemma elapsed_wraps (t0 d : Z) :
  (0 <= d < 2 ^ 32)%Z -> elapsed ((t0 + d) mod 2 ^ 32) t0 = d.
Proof.
  intros Hd. unfold elapsed. rewrite Zminus_mod_idemp_l.
  replace (t0 + d - t0)%Z with d by lia. now apply Z.mod_small.
Qed.

Lemma progress_complete (e : Z) :
  Rgeb (clamp_progress (IZR e / transition_duration)) 1 = true
  <-> (5000 <= e)%Z.
Proof.
  unfold transition_duration. split.
  - intros H. apply Rgeb_true in H.
    destruct (Z_le_gt_dec 5000 e) as [L | G]; [exact L|].
    exfalso. apply Z.gt_lt in G. apply IZR_lt in G.
    revert H. unfold clamp_progress. rdec.
  - intros L. apply IZR_le in L. apply Rgeb_true.
    unfold clamp_progress. rdec.
Qed.

Section HandoffEnd.

Variable ForwardKinematics : Vec3 -> nat -> Vec3.
Variable LegJacobian : Vec3 -> nat -> Mat3.
Variable HipPosition : nat -> Vec3.

Local Abbreviation tick := (Update ForwardKinematics LegJacobian HipPosition).

(** X15.  During the handoff (PositionControl, [just_homed_] set, start
    time [t0] latched, no actuator fault), the tick that runs [d]
    milliseconds after [t0] on the 32-bit clock leaves [just_homed_] set
    exactly when [d < 5000], also when [millis()] has wrapped around
    since [t0]. *)
Theorem handoff_ends_after_duration (t0 d : Z) (s : DriveSystem) :
  control_mode_ s = kPositionControl ->
  CheckErrors s = kIdle ->
  just_homed_ s = true ->
  transition_start_time s = Some t0 ->
  (0 <= d < 2 ^ 32)%Z ->
  (just_homed_ (tick ((t0 + d) mod 2 ^ 32) s) = true <-> (d < 5000)%Z).
Proof.
  intros Hmode Hok Hj Ht Hd.
  rewrite (Update_position_control _ _ _ _ s Hmode Hok).
  rewrite position_control_case_just_homed, Hj.
  rewrite (handoff_progress_latched _ t0 s Ht), (elapsed_wraps t0 d Hd).
  simpl andb. pose proof (progress_complete d) as P.
  destruct (Rgeb _ _); simpl; split; intros H; try easy.
  - assert (5000 <= d)%Z by now apply P. lia.
  - destruct (Z_le_gt_dec 5000 d) as [L | G]; [|lia].
    apply P in L. discriminate.
Qed.

End HandoffEnd.

Lemma first_handoff_no_fault : CheckErrors first_handoff = kIdle.
Proof.
  destruct first_handoff_setup as [S [Z _]].
  rewrite (CheckErrors_ext _ _ S Z). exact homed_once_no_fault.
Qed.

Lemma handoff_ends_after_duration_witness :
  just_homed_ (toy_Update ((1000 + 4999) mod 2 ^ 32) first_handoff) = true.
Proof.
  destruct first_handoff_setup as [_ [_ [M [J T]]]].
  apply (handoff_ends_after_duration toy_ForwardKinematics toy_LegJacobian
           toy_HipPosition 1000 4999 first_handoff M first_handoff_no_fault
           J T); lia.
Defined.

(** ** Telemetry snapshots and printing *)

(** X19.  [DebugData] returns 91 values: the time stamp and the six
    orientation values, then for actuator [i] the seven values calibrated
    position, velocity, current, position reference, velocity reference,
    current reference and last commanded current, from index [7 + 7 * i]
    on. *)
Theorem DebugData_layout (now : Z) (imu : IMU) (s : DriveSystem) (i : nat) :
  (i < kNumActuators)%nat ->
  let d := DebugData now imu s in
  length d = 91%nat
  /\ firstn 7 d
     = [IZR now; yaw imu; pitch imu; roll imu;
        yaw_rate imu; pitch_rate imu; roll_rate imu]
  /\ at_ d (7 + 7 * i) = GetActuatorPosition s i
  /\ at_ d (7 + 7 * i + 1) = GetActuatorVelocity s i
  /\ at_ d (7 + 7 * i + 2) = GetActuatorCurrent s i
  /\ at_ d (7 + 7 * i + 3) = at_ (position_reference_ s) i
  /\ at_ d (7 + 7 * i + 4) = at_ (velocity_reference_ s) i
  /\ at_ d (7 + 7 * i + 5) = at_ (current_reference_ s) i
  /\ at_ d (7 + 7 * i + 6) = at_ (last_commanded_current_ s) i.
Proof.
  intros Hi. cbv zeta. split; [reflexivity|]. split; [reflexivity|].
  each_actuator i Hi; repeat split; reflexivity.
Qed.

Lemma DebugData_layout_witness :
  at_ (DebugData 0 (mkIMU 0 0 0 0 0 0) fresh) (7 + 7 * 11 + 6)
  = at_ (last_commanded_current_ fresh) 11.
Proof.
  assert (Hi : (11 < kNumActuators)%nat) by (unfold kNumActuators; lia).
  pose proof (DebugData_layout 0 (mkIMU 0 0 0 0 0 0) fresh 11 Hi) as H.
  cbv zeta in H. decompose [and] H. assumption.
Defined.

Lemma flat_map_same_length {A B C : Type} (f : A -> list B) (g : A -> list C)
    (l : list A) :
  (forall x, length (f x) = length (g x)) ->
  length (flat_map f l) = length (flat_map g l).
Proof.
  intros H. induction l as [|x t IH]; simpl; [reflexivity|].
  now rewrite !length_app, H, IH.
Qed.

Lemma when_length {A : Type} (b : bool) (x : A) :
  length (when b x) = if b then 1%nat else 0%nat.
Proof. now destruct b. Qed.

(** X20.  A line of [PrintStatus] has six more columns than the line of
    titles of [PrintHeader] for the same options and activation mask: the
    six orientation values are printed without a title. *)
Theorem PrintStatus_columns (options : DrivePrintOptions) (now : Z)
    (imu : IMU) (s : DriveSystem) :
  length (PrintStatus options now imu s)
  = (length (PrintHeader options s) + 6)%nat.
Proof.
  unfold PrintStatus, PrintHeader.
  rewrite !length_app, !when_length. cbn [length].
  rewrite (flat_map_same_length
             (fun i =>
                if negb (atb (active_mask_ s) i) then []
                else
                  when (positions options) (GetActuatorPosition s i)
                  ++ when (velocities options) (GetActuatorVelocity s i)
                  ++ when (currents options) (GetActuatorCurrent s i)
                  ++ when (position_references options)
                       (at_ (position_reference_ s) i)
                  ++ when (velocity_references options)
                       (at_ (velocity_reference_ s) i)
                  ++ when (current_references options)
                       (at_ (current_reference_ s) i)
                  ++ when (last_current options)
                       (at_ (last_commanded_current_ s) i))
             (fun i =>
                if negb (atb (active_mask_ s) i) then []
                else
                  when (positions options) (label "p" i)
                  ++ when (velocities options) (label "v" i)
                  ++ when (currents options) (label "I" i)
                  ++ when (position_references options) (label "pr" i)
                  ++ when (velocity_references options) (label "vr" i)
                  ++ when (current_references options) (label "Ir" i)
                  ++ when (last_current options) (label "Il" i))).
  - lia.
  - intros i. destruct (negb _); [reflexivity|].
    now rewrite !length_app, !when_length.
Qed.

(** X21.  The length prefix that [PrintMsgPackStatus] writes after the two
    marker bytes 69, 69 is two bytes, high byte first, from which every
    16-bit length is recovered. *)
Theorem msgpack_frame_header_length (num_bytes : Z) :
  (0 <= num_bytes < 65536)%Z ->
  exists high low,
    msgpack_frame_header num_bytes = [69; 69; high; low]%Z
    /\ (0 <= high < 256)%Z /\ (0 <= low < 256)%Z
    /\ (high * 256 + low)%Z = num_bytes.
Proof.
  intros H. unfold msgpack_frame_header.
  exists (Z.land (Z.shiftr num_bytes 8) 255), (Z.land num_bytes 255).
  change 255%Z with (Z.ones 8).
  rewrite !Z.land_ones, Z.shiftr_div_pow2 by lia.
  change (2 ^ 8)%Z with 256%Z.
  assert (Hq : (0 <= num_bytes / 256 < 256)%Z).
  { split; [apply Z.div_pos; lia|]. apply Z.div_lt_upper_bound; lia. }
  rewrite (Z.mod_small (num_bytes / 256)) by exact Hq.
  pose proof (Z.mod_pos_bound num_bytes 256 ltac:(lia)).
  pose proof (Z.div_mod num_bytes 256 ltac:(lia)).
  repeat split; try lia.
Qed.

Lemma msgpack_frame_header_length_witness :
  exists high low,
    msgpack_frame_header 1000 = [69; 69; high; low]%Z
    /\ (0 <= high < 256)%Z /\ (0 <= low < 256)%Z
    /\ (high * 256 + low)%Z = 1000%Z.
Proof. apply msgpack_frame_header_length. lia. Defined.

(** ** Reading a controller *)

(** X1.  [GetController(i)] leaves the system as it is for every index up
    to 11, returning controller [i] of the front bus for [i <= 5] and
    controller [i - 6] of the rear bus otherwise; for an index past 11 it
    returns a default controller and puts the system in the error state. *)
Theorem GetController_bounds (i : nat) (s : DriveSystem) :
  ((i <= 5)%nat -> GetController i s = (Get (front_bus_ s) i, s))
  /\ ((6 <= i <= 11)%nat -> GetController i s = (Get (rear_bus_ s) (i - 6), s))
  /\ ((12 <= i)%nat ->
      GetController i s = (C610_default, set_control_mode_ kError s)).
Proof.
  unfold GetController, kNumActuators, kNumActuatorsPerBus.
  repeat split; intros H.
  - assert (E : (i <=? 6 - 1) = true) by (apply Nat.leb_le; simpl; lia).
    now rewrite E.
  - assert (E : (i <=? 6 - 1) = false) by (apply Nat.leb_gt; simpl; lia).
    assert (E1 : (6 <=? i) = true) by (apply Nat.leb_le; lia).
    assert (E2 : (i <=? 12 - 1) = true) by (apply Nat.leb_le; simpl; lia).
    now rewrite E, E1, E2.
  - assert (E : (i <=? 6 - 1) = false) by (apply Nat.leb_gt; simpl; lia).
    assert (E2 : (i <=? 12 - 1) = false) by (apply Nat.leb_gt; simpl; lia).
    now rewrite E, E2, andb_false_r.
Qed.

Lemma GetController_bounds_witness :
  GetController 7 overtravel = (Get (rear_bus_ overtravel) 1, overtravel)
  /\ control_mode_ (snd (GetController 12 overtravel)) = kError.
Proof.
  destruct (GetController_bounds 7 overtravel) as [_ [R _]].
  destruct (GetController_bounds 12 overtravel) as [_ [_ E]].
  split.
  - apply R. lia.
  - rewrite E by lia. reflexivity.
Defined.

(** ** Position control at the reference, recovery, homing current *)

Lemma CheckErrors_SetIdle (s : DriveSystem) :
  CheckErrors (SetIdle s) = CheckErrors s.
Proof.
  apply CheckErrors_ext; [|reflexivity].
  unfold same_setup. repeat split; reflexivity.
Qed.

Lemma ExecuteHomingSequence_raw_positions (s : DriveSystem) (i : nat) :
  GetRawActuatorPosition (ExecuteHomingSequence s) i
  = GetRawActuatorPosition s i.
Proof. now apply raw_position_same_bus. Qed.

Section Recovery.

Variable ForwardKinematics : Vec3 -> nat -> Vec3.
Variable LegJacobian : Vec3 -> nat -> Mat3.
Variable HipPosition : nat -> Vec3.

Local Abbreviation tick := (Update ForwardKinematics LegJacobian HipPosition).

(** X22.  In PositionControl outside the handoff, with no actuator fault
    and non-negative [max_current_] and [fault_current_]: when every
    actuator is at its position reference with the reference velocity, the
    tick commands all-zero current to both buses and stays in
    PositionControl. *)
Theorem position_control_at_reference (now : Z) (s : DriveSystem) :
  control_mode_ s = kPositionControl ->
  just_homed_ s = false ->
  CheckErrors s = kIdle ->
  0 <= max_current_ s ->
  0 <= fault_current_ s ->
  (forall i, (i < kNumActuators)%nat ->
     at_ (position_reference_ s) i = GetActuatorPosition s i
     /\ at_ (velocity_reference_ s) i = GetActuatorVelocity s i) ->
  control_mode_ (tick now s) = kPositionControl
  /\ commands_all_zero s (tick now s).
Proof.
  intros Hmode Hj Hok Hm Hf Href.
  rewrite (Update_position_control _ _ _ now s Hmode Hok).
  unfold position_control_case. rewrite Hj.
  assert (E : pd_currents s (position_reference_ s) = fill 0).
  { unfold pd_currents.
    rewrite (tabulate_ext _ (fun _ => 0)); [reflexivity|].
    intros i Hi. destruct (Href i Hi) as [Ep Ev].
    unfold PD. rewrite Ep, Ev. ring. }
  rewrite E. fold (CommandIdle s). rewrite <- Hmode.
  now apply CommandIdle_zero.
Qed.

(** X23.  [SetIdle] does not clear a fault that persists: the next tick
    puts the system back in the error state.  Once no actuator is past a
    threshold (and [max_current_], [fault_current_] are not negative),
    [SetIdle] followed by a tick leaves the system in Idle, commanding
    all-zero current. *)
Theorem SetIdle_recovery (now : Z) (s : DriveSystem) :
  (actuator_fault s -> control_mode_ (tick now (SetIdle s)) = kError)
  /\ (CheckErrors s = kIdle -> 0 <= max_current_ s -> 0 <= fault_current_ s ->
      control_mode_ (tick now (SetIdle s)) = kIdle
      /\ commands_all_zero s (tick now (SetIdle s))).
Proof.
  split.
  - intros H. apply Update_fault_mode.
    apply CheckErrors_error. rewrite CheckErrors_SetIdle.
    now apply CheckErrors_error.
  - intros Hok Hm Hf.
    rewrite Update_no_fault by now rewrite CheckErrors_SetIdle.
    change (control_mode_ (SetIdle s)) with kIdle. cbv iota.
    destruct (CommandIdle_zero (SetIdle s) Hm Hf) as [M Z].
    split; [exact M | exact Z].
Qed.

(** X24.  [ExecuteHomingSequence] caps the current at [current_limit_]:
    when the homing tick that follows completes and
    [0 <= current_limit_ <= fault_current_], every entry of the command it
    records is within [current_limit_] in magnitude. *)
Theorem homing_current_capped (now : Z) (s : DriveSystem) (i : nat) :
  let h := ExecuteHomingSequence s in
  CheckErrors h = kIdle ->
  (forall j, (j < kNumActuators)%nat
     -> Rabs (GetRawActuatorPosition s j) <= 15 / 100) ->
  0 <= current_limit_ s <= fault_current_ s ->
  Rabs (at_ (last_commanded_current_ (tick now h)) i) <= current_limit_ s.
Proof.
  intros h Hok Hstart Hlim.
  assert (Hs : forall j, (j < kNumActuators)%nat
                 -> Rabs (GetRawActuatorPosition h j) <= 15 / 100).
  { intros j Hj. subst h.
    rewrite ExecuteHomingSequence_raw_positions. now apply Hstart. }
  rewrite (Update_completes_homing _ _ _ now h eq_refl Hok Hs).
  rewrite position_control_case_eq. cbv zeta.
  generalize (position_control_currents now (homing_complete (snapshot h)))
    as c; intros c.
  set (L := latch_statics now (homing_complete (snapshot h))).
  assert (HL : 0 <= max_current_ L <= fault_current_ L) by exact Hlim.
  destruct (CommandCurrents_pass c L (fault_gate_clamped c _ _ HL))
    as [_ [Lc _]].
  assert (B : Rabs (at_ (last_commanded_current_ (CommandCurrents c L)) i)
              <= current_limit_ s).
  { rewrite Lc, at_MaskArray.
    pose proof (at_Constrain_bound c (max_current_ L) i (proj1 HL)) as B.
    change (max_current_ L) with (current_limit_ s) in B.
    destruct (atb _ i).
    - now apply Rabs_le_bound.
    - rewrite Rabs_R0. lra. }
  destruct (_ && _); exact B.
Qed.

End Recovery.

Lemma position_control_at_reference_witness :
  let s := SetJointPositions (fill 0) fresh in
  control_mode_ (toy_Update 5 s) = kPositionControl
  /\ commands_all_zero s (toy_Update 5 s).
Proof.
  intros s.
  assert (Hok : CheckErrors s = kIdle).
  { apply CheckErrors_idle. intros i Hi. pose proof PI_RGT_0.
    each_actuator i Hi; readout; split; apply Rabs_le_bound; lra. }
  apply (position_control_at_reference toy_ForwardKinematics
           toy_LegJacobian toy_HipPosition 5 s eq_refl eq_refl Hok).
  - cbn. lra.
  - cbn. lra.
  - intros i Hi. each_actuator i Hi; readout; split; lra.
Defined.

Lemma SetIdle_recovery_witness :
  control_mode_ (toy_Update 5 (SetIdle overtravel)) = kError.
Proof.
  destruct (SetIdle_recovery toy_ForwardKinematics toy_LegJacobian
              toy_HipPosition 5 overtravel) as [A _].
  apply A. now apply overtravel_fault.
Defined.

Lemma homing_current_capped_witness :
  Rabs (at_ (last_commanded_current_
               (toy_Update 1000 (ExecuteHomingSequence fresh))) 0) <= 2.
Proof.
  apply (homing_current_capped toy_ForwardKinematics toy_LegJacobian
           toy_HipPosition 1000 fresh 0).
  - exact homing_requested_no_fault.
  - intros j Hj. each_actuator j Hj; readout; apply Rabs_le_bound; lra.
  - cbn. lra.
Defined.
